(** * tensorx.transform: sparse/dense index transformations

    A shallow embedding of [tensorx/transform.py] and of the tensor-runtime
    primitives it is written with, followed by the properties of the
    transformations.

    Modelling conventions
    - A dense tensor is its static shape together with its elements in
      row-major order; a sparse tensor is the triple of arrays
      [indices], [values], [dense_shape] of the runtime's [SparseTensor].
    - Scalars are exact numbers: [Z] for tensor elements, [Q] where the code
      divides (dropout).  Element types (dtypes) are tracked where the code
      branches on them ([batch_to_matrix_indices]); rounding, overflow and
      not-a-number values of the runtime's number formats are outside the
      model.
    - Operations that can raise return [result]; the runtime's own checks
      (shape agreement, index validation) are part of the primitives.
    - Randomness (dropout) is an explicit argument: the uniform samples
      drawn for the call. *)

From Stdlib Require Import ZArith List Lia QArith Qround.
From stdpp Require Import base list sorting.

Local Open Scope Z_scope.

(** ** Errors and results *)

(** The exception classes that reach the caller.  [InvalidArgument] is the
    runtime's evaluation-time error (mismatching operand shapes, unordered or
    out-of-range sparse indices). *)
Inductive error : Type :=
  | TypeError
  | ValueError
  | IndexError
  | AttributeError
  | InvalidArgument.

Inductive result (A : Type) : Type :=
  | Ok (a : A)
  | Err (e : error).
Arguments Ok {A} a.
Arguments Err {A} e.

#[global] Instance result_ret : MRet result := fun _ a => Ok a.
#[global] Instance result_bind : MBind result := fun _ _ f m =>
  match m with
  | Ok a => f a
  | Err e => Err e
  end.

(** ** Sparse tensors *)

Record SparseTensor (A : Type) : Type := mkSparse {
  indices : list (list Z);
  values : list A;
  dense_shape : list Z
}.
Arguments mkSparse {A} indices values dense_shape.
Arguments indices {A} s.
Arguments values {A} s.
Arguments dense_shape {A} s.

(** The index/value pairs of a sparse tensor, in storage order. *)
Definition entries {A} (sp : SparseTensor A) : list (list Z * A) :=
  zip (indices sp) (values sp).

(** Row-major comparison of two index tuples, dimension by dimension.  The
    tuples of sparse tensors of one rank have the same number of entries; of
    two tuples that agree as far as the shorter one goes, the shorter comes
    first. *)
Fixpoint dim_cmp (a b : list Z) : comparison :=
  match a, b with
  | [], [] => Eq
  | [], _ :: _ => Lt
  | _ :: _, [] => Gt
  | x :: a', y :: b' =>
      match x ?= y with
      | Eq => dim_cmp a' b'
      | c => c
      end
  end.

(** Indices in strictly increasing row-major order (so without repeats). *)
Fixpoint increasing (l : list (list Z)) : bool :=
  match l with
  | [] => true
  | c :: l' =>
      match l' with
      | [] => true
      | c' :: _ => match dim_cmp c c' with Lt => increasing l' | _ => false end
      end
  end.

(** A [SparseTensor] in canonical form: [indices] is an [N x ndims] matrix,
    [values] has [N] entries, [dense_shape] has [ndims] entries, and the rows
    of [indices] are in row-major order, the order the runtime's sparse
    operations take their operands to be in. *)
Definition canonical {A} (sp : SparseTensor A) : bool :=
  (length (indices sp) =? length (values sp))%nat
  && forallb (fun c => (length c =? length (dense_shape sp))%nat) (indices sp)
  && increasing (indices sp).

(** The value stored at coordinate [c], if [c] is among the indices. *)
Fixpoint assoc {A} (l : list (list Z * A)) (c : list Z) : option A :=
  match l with
  | [] => None
  | (k, v) :: l' => if decide (k = c) then Some v else assoc l' c
  end.

Definition sp_get {A} (sp : SparseTensor A) (c : list Z) : option A :=
  assoc (entries sp) c.

(** *** Runtime primitives on sparse tensors *)

Definition zeros (n : nat) : list Z := repeat 0 n.
Definition ones (n : nat) : list Z := repeat 1 n.
Definition constant (v : Z) (n : nat) : list Z := repeat v n.
Definition not_equal (l : list Z) (v : Z) : list bool :=
  map (fun x => negb (x =? v)) l.

(** The merge loop of the runtime's sparse addition: two cursors walk the
    operands, which are taken to be in index order; a shared index yields the
    sum, kept when its magnitude reaches [thresh]; an index of one operand
    only is copied. *)
Fixpoint merge_entries (thresh : Z) (a b : list (list Z * Z)) {struct a}
  : list (list Z * Z) :=
  let fix merge_aux (b : list (list Z * Z)) {struct b} : list (list Z * Z) :=
    match a, b with
    | [], _ => b
    | _, [] => a
    | (ca, va) :: a', (cb, vb) :: b' =>
        match dim_cmp ca cb with
        | Lt => (ca, va) :: merge_entries thresh a' b
        | Eq =>
            let s := va + vb in
            if thresh <=? Z.abs s
            then (ca, s) :: merge_entries thresh a' b'
            else merge_entries thresh a' b'
        | Gt => (cb, vb) :: merge_aux b'
        end
    end
  in merge_aux b.

(** [sparse_add a b thresh]: operands must have the same [dense_shape]. *)
Definition sparse_add (a b : SparseTensor Z) (thresh : Z)
  : result (SparseTensor Z) :=
  if negb (bool_decide (dense_shape a = dense_shape b)) then Err InvalidArgument
  else if negb ((length (indices a) =? length (values a))%nat
                && (length (indices b) =? length (values b))%nat)
  then Err InvalidArgument
  else
    let out := merge_entries thresh (entries a) (entries b) in
    Ok (mkSparse (out.*1) (out.*2) (dense_shape a)).

(** Elements of [l] at the positions where [mask] is true. *)
Fixpoint gather_true {A} (l : list A) (mask : list bool) : list A :=
  match l, mask with
  | x :: l', m :: mask' =>
      if m then x :: gather_true l' mask' else gather_true l' mask'
  | _, _ => []
  end.

(** [sparse_retain sp to_retain]: one flag per stored value. *)
Definition sparse_retain {A} (sp : SparseTensor A) (to_retain : list bool)
  : result (SparseTensor A) :=
  if negb (length (values sp) =? length to_retain)%nat then Err ValueError
  else Ok (mkSparse (gather_true (indices sp) to_retain)
                    (gather_true (values sp) to_retain)
                    (dense_shape sp)).

(** *** [sparse_put] *)

(** Values carry no element type here, so the cast of [sp_updates] to the
    type of [sp_tensor] that opens the function changes nothing; the steps
    below are those of the source, with its comments. *)
Definition sparse_put (sp_tensor sp_updates : SparseTensor Z)
  : result (SparseTensor Z) :=
  (* 1 concat indices and establish final tensor shape *)
  let update_shape := length (values sp_updates) in
  let zero_updates :=
    mkSparse (indices sp_updates) (zeros update_shape) (dense_shape sp_updates) in
  proto_result ← sparse_add sp_tensor zero_updates 0;
  (* shape of resulting values tensor *)
  let proto_shape := length (values proto_result) in
  (* 2 get mask for input tensor *)
  let proto_ones :=
    mkSparse (indices proto_result) (ones proto_shape) (dense_shape proto_result) in
  let sp_mask :=
    mkSparse (indices sp_updates) (constant (-1) update_shape)
             (dense_shape sp_updates) in
  to_retain ← sparse_add proto_ones sp_mask 0;
  let to_retain := not_equal (values to_retain) 0 in
  (* get tensor with masked values *)
  tensor_masked ← sparse_retain proto_result to_retain;
  (* add values to entries previously set to 0 *)
  sparse_add tensor_masked sp_updates 0.

(** ** Dense tensors *)

(** A dense tensor: its shape and its elements in row-major order. *)
Record Tensor (A : Type) : Type := mkTensor {
  shape : list nat;
  data : list A
}.
Arguments mkTensor {A} shape data.
Arguments shape {A} t.
Arguments data {A} t.

(** Number of elements of a tensor of shape [s]. *)
Definition size (s : list nat) : nat := foldr Nat.mul 1%nat s.

Definition well_shaped {A} (t : Tensor A) : bool :=
  (length (data t) =? size (shape t))%nat.

(** Row-major offset of a coordinate, and the coordinate of an offset. *)
Fixpoint ravel (s c : list nat) : nat :=
  match s, c with
  | _ :: s', x :: c' => (x * size s' + ravel s' c')%nat
  | _, _ => 0%nat
  end.

Fixpoint unravel (s : list nat) (k : nat) : list nat :=
  match s with
  | [] => []
  | _ :: s' => (k / size s')%nat :: unravel s' (k mod size s')%nat
  end.

(** The coordinate of offset [k], as an index tuple. *)
Definition coord_of (s : list nat) (k : nat) : list Z := Z.of_nat <$> unravel s k.

(** [c] addresses an element of a tensor of shape [ds]. *)
Fixpoint in_bounds (ds c : list Z) : bool :=
  match ds, c with
  | [], [] => true
  | d :: ds', x :: c' => (0 <=? x) && (x <? d) && in_bounds ds' c'
  | _, _ => false
  end.

(** [array_ops.shape(tensor, out_type=int64)] *)
Definition shape_of {A} (t : Tensor A) : list Z := Z.of_nat <$> shape t.

(** The element at coordinate [c]. *)
Definition tensor_at {A} (t : Tensor A) (c : list Z) : option A :=
  if in_bounds (shape_of t) c
  then data t !! ravel (shape t) (Z.to_nat <$> c)
  else None.

(** *** Runtime primitives on dense tensors *)

(** [math_ops.not_equal(tensor, v)], element by element. *)
Definition tensor_not_equal (t : Tensor Z) (v : Z) : Tensor bool :=
  mkTensor (shape t) (not_equal (data t) v).

(** Offsets of the true elements, in increasing order, counting from [k]. *)
Fixpoint true_offsets (mask : list bool) (k : nat) : list nat :=
  match mask with
  | [] => []
  | b :: mask' =>
      if b then k :: true_offsets mask' (S k) else true_offsets mask' (S k)
  end.

(** [array_ops.where(condition)]: the coordinates of the true elements, in
    row-major order. *)
Definition where_true (condition : Tensor bool) : list (list Z) :=
  coord_of (shape condition) <$> true_offsets (data condition) 0.

(** [array_ops.gather_nd(params, indices)] with full coordinates: one element
    per index tuple; an index outside [params] is an error. *)
Fixpoint gather_nd {A} (params : Tensor A) (idx : list (list Z))
  : result (list A) :=
  match idx with
  | [] => Ok []
  | c :: idx' =>
      match tensor_at params c with
      | None => Err InvalidArgument
      | Some x => xs ← gather_nd params idx'; Ok (x :: xs)
      end
  end.

(** [array_ops.where(condition, x, y)] with three operands of one shape (the
    form [dense_put] uses): the result takes each element from [x] where
    [condition] holds and from [y] elsewhere. *)
Definition select {A} (condition : Tensor bool) (x y : Tensor A)
  : result (Tensor A) :=
  if negb (bool_decide (shape condition = shape x)
           && bool_decide (shape x = shape y))
  then Err InvalidArgument
  else Ok (mkTensor (shape x)
             (zip_with (fun (c : bool) (xy : A * A) => if c then xy.1 else xy.2)
                       (data condition) (zip (data x) (data y)))).

(** The index validation of [sparse_tensor_to_dense]: every index tuple
    lies inside [dense_shape], and the tuples are strictly increasing (not
    out of order, not repeated). *)
Definition indices_valid {A} (sp : SparseTensor A) : bool :=
  forallb (in_bounds (dense_shape sp)) (indices sp) && increasing (indices sp).

(** Writing the stored values into a dense array, one after the other. *)
Definition scatter {A} (s : list nat) (es : list (list Z * A)) (init : list A)
  : list A :=
  foldl (fun acc e => <[ravel s (Z.to_nat <$> e.1) := e.2]> acc) init es.

(** [sp_ops.sparse_tensor_to_dense(sp, default_value)], which validates the
    indices. *)
Definition sparse_tensor_to_dense (sp : SparseTensor Z) (default_value : Z)
  : result (Tensor Z) :=
  if negb (forallb (Z.leb 0) (dense_shape sp)) then Err InvalidArgument
  else if negb (length (indices sp) =? length (values sp))%nat
  then Err InvalidArgument
  else if negb (indices_valid sp) then Err InvalidArgument
  else
    let s := Z.to_nat <$> dense_shape sp in
    Ok (mkTensor s (scatter s (entries sp) (repeat default_value (size s)))).

(** *** [to_sparse], [to_dense], [dense_put] *)

Definition to_sparse (tensor : Tensor Z) : result (SparseTensor Z) :=
  let indices := where_true (tensor_not_equal tensor 0) in
  let dense_shape := shape_of tensor in
  values ← gather_nd tensor indices;
  let sp_tensor := mkSparse indices values dense_shape in
  Ok sp_tensor.

(** What a caller may pass where a sparse tensor is expected. *)
Inductive tensor_like : Type :=
  | IsTensor (t : Tensor Z)
  | IsSparseTensor (sp : SparseTensor Z).

Definition to_dense (sp_tensor : tensor_like) : result (Tensor Z) :=
  match sp_tensor with
  | IsSparseTensor sp => sparse_tensor_to_dense sp 0
  | IsTensor _ => Err TypeError
  end.

(** As in [sparse_put], converting [tensor] and casting [sp_updates] to its
    element type change nothing in this model. *)
Definition dense_put (tensor : Tensor Z) (sp_updates : SparseTensor Z)
  : result (Tensor Z) :=
  let markers := ones (length (values sp_updates)) in
  let sparse_marker_tensor :=
    mkSparse (indices sp_updates) markers (dense_shape sp_updates) in
  dense_update_marker ← sparse_tensor_to_dense sparse_marker_tensor 0;
  dense_updates ← sparse_tensor_to_dense sp_updates 0;
  let new_tensor :=
    select (tensor_not_equal dense_update_marker 0) dense_updates tensor in
  new_tensor.

(** ** Index batches *)

(** Element types of the runtime. *)
Inductive DType : Type :=
  | int8 | int32 | int64 | float32 | float64 | bool_.

#[global] Instance DType_eq_dec : EqDecision DType.
Proof. solve_decision. Defined.

(** A tensor together with its element type, for the operations that look
    at it. *)
Record DTensor : Type := mkDTensor {
  dtype_of : DType;
  tensor_of : Tensor Z
}.

(** [math_ops.cast]: the elements retagged as [dtype]. *)
Definition cast (x : DTensor) (dtype : DType) : DTensor :=
  mkDTensor dtype (tensor_of x).

(** Modelled from the spec: [tensorx.utils.to_tensor_cast] is not among the
    sources.  Inputs are "normalized internally to the runtime's native
    tensor type before use" (spec, External Interfaces), and the docstring of
    [batch_to_matrix_indices] calls its [dtype] argument "the output tensor
    type": the helper converts its argument to a tensor and casts it to
    [dtype] when its element type is another one. *)
Definition to_tensor_cast (x : DTensor) (dtype : DType) : DTensor :=
  if bool_decide (dtype_of x ≠ dtype) then cast x dtype else x.

(** [TensorShape.with_rank] *)
Definition with_rank (rank : nat) (s : list nat) : result (list nat) :=
  if (length s =? rank)%nat then Ok s else Err ValueError.

(** [shape[i]] *)
Definition dim (s : list nat) (i : nat) : result nat :=
  match s !! i with
  | Some d => Ok d
  | None => Err IndexError
  end.

(** [math_ops.range(n)] *)
Definition range (n : nat) : Tensor Z := mkTensor [n] (Z.of_nat <$> seq 0 n).

(** [array_ops.expand_dims(t, axis)] *)
Definition expand_dims {A} (t : Tensor A) (axis : nat) : result (Tensor A) :=
  if (axis <=? length (shape t))%nat
  then Ok (mkTensor (take axis (shape t) ++ 1%nat :: drop axis (shape t)) (data t))
  else Err InvalidArgument.

(** The first [n] consecutive blocks of [w] elements of [l]. *)
Fixpoint chunks {A} (w n : nat) (l : list A) : list (list A) :=
  match n with
  | O => []
  | S n' => take w l :: chunks w n' (drop w l)
  end.

(** [array_ops.tile(t, multiples)]: along each dimension the tensor is
    repeated [multiples[i]] times. *)
Fixpoint tile_data {A} (s ms : list nat) (l : list A) : list A :=
  match s, ms with
  | d :: s', m :: ms' =>
      concat (repeat (concat (tile_data s' ms' <$> chunks (size s') d l)) m)
  | _, _ => l
  end.

Definition tile {A} (t : Tensor A) (multiples : list nat) : result (Tensor A) :=
  if negb (length multiples =? length (shape t))%nat then Err InvalidArgument
  else Ok (mkTensor (zip_with Nat.mul (shape t) multiples)
                    (tile_data (shape t) multiples (data t))).

(** [array_ops.stack([x, y], axis=-1)]: the operands have one shape; their
    elements are paired along a new last dimension. *)
Definition stack_last {A} (x y : Tensor A) : result (Tensor A) :=
  if negb (bool_decide (shape x = shape y)) then Err InvalidArgument
  else Ok (mkTensor (shape x ++ [2%nat])
                    (concat (zip_with (fun a b => [a; b]) (data x) (data y)))).

(** [array_ops.reshape(t, dims)]; one entry of [dims] may be [-1] and is then
    inferred from the number of elements. *)
Definition reshape {A} (t : Tensor A) (dims : list Z) : result (Tensor A) :=
  let n := length (data t) in
  let known := size (Z.to_nat <$> List.filter (fun d => negb (d =? -1)) dims) in
  let unknowns := length (List.filter (fun d => d =? -1) dims) in
  if negb (forallb (Z.leb (-1)) dims && (unknowns <=? 1)%nat)
  then Err InvalidArgument
  else if (unknowns =? 0)%nat then
    if (known =? n)%nat then Ok (mkTensor (Z.to_nat <$> dims) (data t))
    else Err InvalidArgument
  else if (known =? 0)%nat || negb (n mod known =? 0)%nat
  then Err InvalidArgument
  else Ok (mkTensor
             ((fun d => if d =? -1 then (n / known)%nat else Z.to_nat d) <$> dims)
             (data t)).

(** *** [batch_to_matrix_indices] *)

(** The shape of a tensor is known in this model, so the static shape and
    the shape read at evaluation time are the same numbers. *)
Definition batch_to_matrix_indices (tensor : DTensor) (dtype : DType)
  : result DTensor :=
  let tensor := to_tensor_cast tensor dtype in
  if bool_decide (dtype_of tensor ≠ int32) && bool_decide (dtype_of tensor ≠ int64)
  then Err TypeError
  else
    shape ← with_rank 2 (shape (tensor_of tensor));
    n ← dim shape 0;
    m ← dim shape 1;
    let rows := range n in
    rows ← expand_dims rows 1;
    let multiples := [1%nat; m] in
    rows ← tile rows multiples;
    enum ← stack_last rows (tensor_of tensor);
    enum ← reshape enum [-1; 2];
    Ok (mkDTensor (dtype_of tensor) enum).

(** ** [index_list_to_sparse] *)

(** The arrays of a [SparseTensorValue]. *)
Record SparseTensorValue : Type := mkSparseValue {
  v_indices : list (list Z);
  v_values : list Z;
  v_dense_shape : list Z
}.

(** The inner loop, over the indexes of row [row]: [idx] is the list built
    so far.  [dense_shape[1]] is read at every comparison. *)
Fixpoint row_loop (row : Z) (indexes : list Z) (dense_shape : list Z)
    (idx : list (list Z)) : result (list (list Z)) :=
  match indexes with
  | [] => Ok idx
  | i :: indexes' =>
      match dense_shape !! 1%nat with
      | None => Err IndexError
      | Some bound =>
          if i >=? bound then Err ValueError
          else row_loop row indexes' dense_shape (idx ++ [[row; i]])
      end
  end.

(** The outer loop, [for row, indexes in enumerate(indices)], from row
    number [row] on. *)
Fixpoint rows_loop (row : Z) (indices : list (list Z)) (dense_shape : list Z)
    (idx : list (list Z)) : result (list (list Z)) :=
  match indices with
  | [] => Ok idx
  | indexes :: indices' =>
      idx' ← row_loop row indexes dense_shape idx;
      rows_loop (row + 1) indices' dense_shape idx'
  end.

Definition index_list_to_sparse (indices : list (list Z)) (dense_shape : list Z)
  : result SparseTensorValue :=
  idx ← rows_loop 0 indices dense_shape [];
  let values := ones (length idx) in
  Ok (mkSparseValue idx values dense_shape).

(** ** [sparse_dropout] *)

(** [array_ops.boolean_mask(tensor, mask)]: the mask has one flag per
    element along the first dimension. *)
Definition boolean_mask {A} (tensor : list A) (mask : list bool)
  : result (list A) :=
  if (length tensor =? length mask)%nat then Ok (gather_true tensor mask)
  else Err InvalidArgument.

(** [nn.dropout(x, keep_prob, seed=seed)] for a number [keep_prob], which
    must lie in (0, 1]; [noise i] is the uniform sample of [[0, 1)] drawn for
    element [i].  An element is kept, scaled by [1 / keep_prob], when
    [keep_prob + noise i] reaches 1, and zeroed otherwise. *)
Definition dropout (x : list Q) (keep_prob : Q) (noise : nat → Q)
  : result (list Q) :=
  if negb (negb (Qle_bool keep_prob 0) && Qle_bool keep_prob 1)
  then Err ValueError
  else if Qeq_bool keep_prob 1 then Ok x
  else
    Ok (imap (fun i v =>
                let random_tensor := (keep_prob + noise i)%Q in
                let binary_tensor := inject_Z (Qfloor random_tensor) in
                (v / keep_prob * binary_tensor)%Q) x).

Definition q_not_equal (l : list Q) (v : Q) : list bool :=
  (fun x => negb (Qeq_bool x v)) <$> l.

Definition sparse_dropout (sp_tensor : SparseTensor Q) (keep_prob : Q)
    (noise : nat → Q) : result (SparseTensor Q) :=
  let dense_shape := dense_shape sp_tensor in
  drop_values ← dropout (values sp_tensor) keep_prob noise;
  let not_zero := q_not_equal drop_values 0 in
  (* new indices (after dropout) *)
  values ← boolean_mask drop_values not_zero;
  indices ← boolean_mask (indices sp_tensor) not_zero;
  Ok (mkSparse indices values dense_shape).

(** ** [complete_shape] *)

(** The [shape] argument: a Python list (or tuple) of dimensions, or a
    [TensorShape].  An unknown dimension is [None]. *)
Inductive shape_arg : Type :=
  | PyList (dims : list (option nat))
  | PyTensorShape (dims : list (option nat)).

(** [TensorShape(shape)] accepts both. *)
Definition TensorShape (shape : shape_arg) : list (option nat) :=
  match shape with
  | PyList dims => dims
  | PyTensorShape dims => dims
  end.

Definition is_fully_defined (dims : list (option nat)) : bool :=
  forallb (fun d => match d with Some _ => true | None => false end) dims.

(** [shape.as_list()]: a method of [TensorShape]; a list has no such
    attribute. *)
Definition as_list (shape : shape_arg) : result (list (option nat)) :=
  match shape with
  | PyTensorShape dims => Ok dims
  | PyList _ => Err AttributeError
  end.

(** [l[i]] on a Python list. *)
Definition list_item {A} (l : list A) (i : nat) : result A :=
  match l !! i with
  | Some x => Ok x
  | None => Err IndexError
  end.

(** What [complete_shape] returns: its argument, or a new tensor. *)
Inductive shape_result : Type :=
  | SameShape (shape : shape_arg)
  | ShapeTensor (t : DTensor).

(** [math_ops.cast([batch_size, dim], dtype)]: both entries must be
    numbers. *)
Definition cast_pair (batch_size : Z) (dim : option nat) (dtype : DType)
  : result DTensor :=
  match dim with
  | Some d =>
      Ok (mkDTensor dtype (mkTensor [2%nat] [batch_size; Z.of_nat d]))
  | None => Err TypeError
  end.

Definition complete_shape {A} (tensor : Tensor A) (shape : shape_arg)
    (dtype : DType) : result shape_result :=
  let tensor_shape := TensorShape shape in
  if is_fully_defined tensor_shape then Ok (SameShape shape)
  else
    dims ← as_list shape;
    dim ← list_item dims 1;
    batch_size ← list_item (shape_of tensor) 0;
    t ← cast_pair batch_size dim dtype;
    Ok (ShapeTensor t).

(** ** Auxiliary constructors *)

(** [array_ops.ones([rows, cols])] as the list of its rows. *)
Definition ones_matrix (rows cols : nat) : list (list Z) :=
  repeat (repeat 1 cols) rows.

(** [empty_sparse_tensor(dense_shape)]: [dense_shape] is a vector here, so
    [with_rank(1)] holds and [index_shape[0]] is its length. *)
Definition empty_sparse_tensor (dense_shape : list Z) : SparseTensor Z :=
  let index_shape := [length dense_shape] in
  let empty_indices := ones_matrix 0 (default 0%nat (index_shape !! 0%nat)) in
  let empty_values := ones 0 in
  mkSparse empty_indices empty_values dense_shape.

(** [default_sp_values(sp_indices)]: [ones_like] the values. *)
Definition default_sp_values {A} (sp_indices : SparseTensor A) : SparseTensor Z :=
  let values := (fun _ => 1) <$> values sp_indices in
  mkSparse (indices sp_indices) values (dense_shape sp_indices).

(** [fill_sp_ones(sp_indices)]: as many ones as [indices] has rows. *)
Definition fill_sp_ones {A} (sp_indices : SparseTensor A) : SparseTensor Z :=
  let n_active := length (indices sp_indices) in
  let values := ones n_active in
  mkSparse (indices sp_indices) values (dense_shape sp_indices).


(** ** [pairs] *)

(** [array_ops.meshgrid(x, y)] with the default indexing: both arguments are
    flattened; with [n] elements in [x] and [m] in [y] the two results have
    shape [[m; n]], the first repeating [x] along its rows and the second
    repeating [y] along its columns. *)
Definition meshgrid {A} (x y : Tensor A) : Tensor A * Tensor A :=
  let n := length (data x) in
  let m := length (data y) in
  (mkTensor [m; n] (concat (repeat (data x) m)),
   mkTensor [m; n] (concat ((fun b => repeat b n) <$> data y))).

Definition pairs {A} (tensor1 tensor2 : Tensor A) : result (Tensor A) :=
  let '(x, y) := meshgrid tensor1 tensor2 in
  stacked ← stack_last x y;
  reshape stacked [-1; 2].

(** ** The [SparseTensor] constructor *)

(** [ops.convert_to_tensor(dims, dtype)] on a Python list of dimensions: a
    list with a [None] entry is not a tensor. *)
Definition convert_to_tensor (dims : list (option nat)) (dtype : DType)
  : result DTensor :=
  if is_fully_defined dims
  then Ok (mkDTensor dtype
             (mkTensor [length dims]
                       ((fun d => Z.of_nat (default 0%nat d)) <$> dims)))
  else Err TypeError.

(** The [dense_shape] argument of the constructor as a vector: a tensor is
    taken as it is, a list is converted, and so is a [TensorShape], which
    must be fully defined. *)
Definition shape_vector (dense_shape : shape_result) : result (Tensor Z) :=
  match dense_shape with
  | ShapeTensor t => Ok (tensor_of t)
  | SameShape (PyList dims) =>
      t ← convert_to_tensor dims int64; Ok (tensor_of t)
  | SameShape (PyTensorShape dims) =>
      if is_fully_defined dims
      then t ← convert_to_tensor dims int64; Ok (tensor_of t)
      else Err ValueError
  end.

(** [SparseTensor(indices, values, dense_shape)] on tensors: the constructor
    compares the static shapes, [[N; ndims]], [[N]] and [[ndims]].  The
    indices are kept as the list of the rows of the matrix. *)
Definition SparseTensor_init {A} (indices : Tensor Z) (values : Tensor A)
    (dense_shape : shape_result) : result (SparseTensor A) :=
  dense_shape ← shape_vector dense_shape;
  indices_shape ← with_rank 2 (shape indices);
  values_shape ← with_rank 1 (shape values);
  dense_shape_shape ← with_rank 1 (shape dense_shape);
  n ← dim indices_shape 0;
  n_values ← dim values_shape 0;
  if negb (n =? n_values)%nat then Err ValueError
  else
    ndims ← dim indices_shape 1;
    n_dense ← dim dense_shape_shape 0;
    if negb (ndims =? n_dense)%nat then Err ValueError
    else Ok (mkSparse (chunks ndims n (data indices)) (data values)
                      (data dense_shape)).

(** ** [sp_indices_from_sp_values] *)

(** [array_ops.unstack(value, num, axis=-1)] on a matrix given by its static
    shape and the list of its rows: the last dimension must be [num]; the
    result is the list of the columns. *)
Definition unstack_last (num : nat) (static_shape : list nat)
    (rows : list (list Z)) : result (list (list Z)) :=
  if bool_decide (last static_shape = Some num)
  then Ok ((fun j => (fun row => default 0 (row !! j)) <$> rows) <$> seq 0 num)
  else Err ValueError.

(** The static shape of the indices of a sparse tensor; the constructor
    makes its second dimension the length of [dense_shape]. *)
Definition indices_shape {A} (sp : SparseTensor A) : list nat :=
  [length (indices sp); length (dense_shape sp)].

Definition sp_indices_from_sp_values {A} (sp_values : SparseTensor A)
  : result (SparseTensor Z) :=
  columns ← unstack_last 2 (indices_shape sp_values) (indices sp_values);
  match columns with
  | [_; flat_indices] =>
      Ok (mkSparse (indices sp_values) flat_indices (dense_shape sp_values))
  | _ => Err ValueError
  end.

(** ** [flat_to_sparse_indices] and [flat_indices_to_sparse_tensor] *)

(** [dense_shape] is a Python list here; [dense_shape[0] is None] is looked
    at before anything is converted. *)
Definition flat_to_sparse_indices (indices : DTensor)
    (dense_shape : list (option nat)) : result (SparseTensor Z) :=
  let indices :=
    if bool_decide (dtype_of indices ≠ int64) then cast indices int64
    else indices in
  sp_indices ← batch_to_matrix_indices indices int64;
  d0 ← list_item dense_shape 0;
  dense_shape ←
    match d0 with
    | None => complete_shape (tensor_of indices) (PyList dense_shape) int64
    | Some _ => t ← convert_to_tensor dense_shape int64; Ok (ShapeTensor t)
    end;
  flat ← reshape (tensor_of indices) [-1];
  SparseTensor_init (tensor_of sp_indices) flat dense_shape.

(** [array_ops.fill(dims, value)] *)
Definition fill (dims : list nat) (value : Z) : Tensor Z :=
  mkTensor dims (repeat value (size dims)).

(** The filled values are of type int32 before the cast. *)
Definition flat_indices_to_sparse_tensor (indices : DTensor)
    (dense_shape : shape_arg) (default_value : Z) (dtype : DType)
  : result (SparseTensor Z) :=
  let indices :=
    if bool_decide (dtype_of indices ≠ int64) then cast indices int64
    else indices in
  sp_indices ← batch_to_matrix_indices indices int64;
  let dense_shape := PyTensorShape (TensorShape dense_shape) in
  dense_shape ← complete_shape (tensor_of indices) dense_shape int64;
  n_values ← dim (shape (tensor_of sp_indices)) 0;
  let values := mkDTensor int32 (fill [n_values] default_value) in
  let values :=
    if bool_decide (dtype_of values ≠ dtype) then cast values dtype
    else values in
  SparseTensor_init (tensor_of sp_indices) (tensor_of values) dense_shape.

(** ** [flat_indices_to_dense] *)

(** [array_ops.one_hot(indices, depth)]: a new last dimension of [depth]
    entries, 1 at the position of the index and 0 elsewhere; an index
    outside [[0, depth)] gives zeros only.  [depth] must be a number. *)
Definition one_hot (indices : Tensor Z) (depth : option nat)
  : result (Tensor Z) :=
  match depth with
  | Some depth =>
      Ok (mkTensor (shape indices ++ [depth])
            (concat ((fun i => (fun j => if i =? Z.of_nat j then 1 else 0)
                                 <$> seq 0 depth) <$> data indices)))
  | None => Err ValueError
  end.

(** The elements of the sum along dimension [axis] of row-major data of
    shape [s]. *)
Fixpoint reduce_data (s : list nat) (axis : nat) (l : list Z) : list Z :=
  match s, axis with
  | d :: s', O =>
      foldr (zip_with Z.add) (repeat 0 (size s')) (chunks (size s') d l)
  | d :: s', S axis' => concat (reduce_data s' axis' <$> chunks (size s') d l)
  | [], _ => l
  end.

(** [math_ops.reduce_sum(t, axis)] *)
Definition reduce_sum (t : Tensor Z) (axis : nat) : result (Tensor Z) :=
  if (axis <? length (shape t))%nat
  then Ok (mkTensor (delete axis (shape t)) (reduce_data (shape t) axis (data t)))
  else Err ValueError.

(** [t[i]] on a vector. *)
Definition tensor_item (t : Tensor Z) (i : nat) : result Z :=
  match data t !! i with
  | Some x => Ok x
  | None => Err ValueError
  end.

Definition flat_indices_to_dense (indices : DTensor) (dense_shape : shape_arg)
  : result (Tensor Z) :=
  let indices :=
    if bool_decide (dtype_of indices ≠ int64) then cast indices int64
    else indices in
  depth ←
    match dense_shape with
    | PyTensorShape dims => list_item dims 1
    | PyList dims =>
        dense_shape ← convert_to_tensor dims int32;
        depth ← tensor_item (tensor_of dense_shape) 1;
        Ok (Some (Z.to_nat depth))
    end;
  encoding ← one_hot (tensor_of indices) depth;
  reduce_sum encoding 1.
(** ** Vocabulary of the statements *)

(** Strict row-major order on index tuples. *)
Definition lt_c (a b : list Z) : Prop := dim_cmp a b = Lt.

(** An index/value list whose indices are in strict row-major order. *)
Definition ksorted {A} (l : list (list Z * A)) : Prop :=
  StronglySorted lt_c (l.*1).


(** A sparse tensor that [sparse_tensor_to_dense] accepts: canonical, with
    every index inside [dense_shape]. *)
Definition valid_sparse {A} (sp : SparseTensor A) : bool :=
  canonical sp && forallb (in_bounds (dense_shape sp)) (indices sp).


(** The pairs [[row; i]] of a list of rows, rows numbered from [row]. *)
Fixpoint row_pairs (row : Z) (indices : list (list Z)) : list (list Z) :=
  match indices with
  | [] => []
  | indexes :: indices' =>
      ((fun i => [row; i]) <$> indexes) ++ row_pairs (row + 1) indices'
  end.

(** ** Sample inputs *)

Definition ex_sp_tensor : SparseTensor Z :=
  mkSparse [[0; 0]; [0; 2]; [1; 1]] [5; 6; 7] [2; 3].
Definition ex_sp_updates : SparseTensor Z :=
  mkSparse [[0; 1]; [0; 2]; [1; 0]] [9; 0; -4] [2; 3].

Definition ex_tensor : Tensor Z := mkTensor [2; 3]%nat [1; 0; 2; 0; 0; 3].

Definition ex_batch : DTensor :=
  mkDTensor int32 (mkTensor [2; 2]%nat [1; 2; 2; 5]).
Definition ex_float_batch : DTensor :=
  mkDTensor float32 (mkTensor [2; 2]%nat [1; 2; 2; 5]).

Definition ex_index_list : list (list Z) := [[-3]; [2; -1]].

Definition ex_sp_q : SparseTensor Q :=
  mkSparse [[0; 0]; [0; 2]; [1; 1]] [1 # 2; 3 # 1; 0 # 1]%Q [2; 3].
Definition ex_noise (i : nat) : Q := if Nat.even i then (3 # 4)%Q else (1 # 4)%Q.
Definition ex_ref_tensor : Tensor Z := mkTensor [7; 3]%nat (repeat 0 21).


(** Further sample inputs. *)

(** The index list of the docstring of [index_list_to_sparse]. *)
Definition ex_index_rows : list (list Z) := [[0; 5]; [0; 2; 7]; [1]].

(** A batch of rank 1. *)
Definition ex_vector : DTensor := mkDTensor int32 (mkTensor [3%nat] [1; 2; 5]).

(** The batch of the docstring of [flat_to_sparse_indices]. *)
Definition ex_flat_batch : DTensor :=
  mkDTensor int32 (mkTensor [2; 2]%nat [0; 1; 1; 2]).

(** How many times the index [j] occurs in [row]. *)
Definition count_index (j : Z) (row : list Z) : Z :=
  Z.of_nat (length (List.filter (fun i => i =? j) row)).

(** A batch with a repeated index and indices outside [[0, 3)]. *)
Definition ex_count_batch : DTensor :=
  mkDTensor int32 (mkTensor [2; 3]%nat [0; 1; 1; 2; 5; -1]).

(** A batch whose rows list increasing indices. *)
Definition ex_sorted_batch : DTensor :=
  mkDTensor int64 (mkTensor [2; 2]%nat [0; 2; 1; 2]).
(** * Properties *)

(** ** The row-major order on index tuples *)

Lemma dim_cmp_refl a : dim_cmp a a = Eq.
Proof. induction a as [|x a IH]; simpl; [done|]. by rewrite Z.compare_refl. Qed.



Lemma lt_c_irrefl a : ¬ lt_c a a.
Proof. unfold lt_c. by rewrite dim_cmp_refl. Qed.

Lemma lt_c_trans a b c : lt_c a b → lt_c b c → lt_c a c.
Proof.
  unfold lt_c. revert b c.
  induction a as [|x a IH]; intros [|y b] [|z c]; simpl; try done.
  destruct (Z.compare_spec x y), (Z.compare_spec y z),
    (Z.compare_spec x z); try done; try lia.
  apply IH.
Qed.



#[local] Instance lt_c_transitive : Transitive lt_c := lt_c_trans.

Lemma increasing_Sorted l : increasing l = true ↔ Sorted lt_c l.
Proof.
  induction l as [|c l IH]; [by split; [constructor|]|].
  destruct l as [|c' l].
  { split; [repeat constructor | done]. }
  change (increasing (c :: c' :: l))
    with (match dim_cmp c c' with Lt => increasing (c' :: l) | _ => false end).
  split.
  - destruct (dim_cmp c c') eqn:E; try done.
    intros H. constructor; [by apply IH | by constructor].
  - intros H. inversion H as [|? ? Hs Hh]; subst.
    inversion Hh as [|? ? Hlt]; subst. unfold lt_c in Hlt. rewrite Hlt.
    by apply IH.
Qed.

Lemma increasing_sorted l : increasing l = true ↔ StronglySorted lt_c l.
Proof.
  rewrite increasing_Sorted. split.
  - apply Sorted_StronglySorted, _.
  - apply StronglySorted_Sorted.
Qed.

(** ** Index/value lists in row-major order *)

Section assoc_lists.
Context {A : Type}.
Implicit Types (l : list (list Z * A)) (c k : list Z).

Lemma assoc_notin l c : c ∉ l.*1 → assoc l c = None.
Proof.
  induction l as [|[k v] l IH]; simpl; [done|].
  rewrite not_elem_of_cons. intros [Hne Hl].
  destruct (decide (k = c)); [congruence | auto].
Qed.

Lemma assoc_in l c : c ∈ l.*1 → is_Some (assoc l c).
Proof.
  induction l as [|[k v] l IH]; simpl.
  - by intros ?%elem_of_nil.
  - intros [Heq|Hl]%elem_of_cons; destruct (decide (k = c)); eauto; congruence.
Qed.



Lemma assoc_None_iff l c : assoc l c = None ↔ c ∉ l.*1.
Proof.
  split; [|apply assoc_notin].
  intros H Hin. destruct (assoc_in l c Hin) as [v Hv]. congruence.
Qed.

Lemma Forall_lt_notin c (ks : list (list Z)) : Forall (lt_c c) ks → c ∉ ks.
Proof.
  intros H Hin. rewrite Forall_forall in H.
  exact (lt_c_irrefl c (H c Hin)).
Qed.

Lemma ksorted_cons k v l :
  ksorted ((k, v) :: l) ↔ Forall (lt_c k) (l.*1) ∧ ksorted l.
Proof. unfold ksorted. simpl. apply StronglySorted_cons. Qed.

Lemma ksorted_head_None k v l : ksorted ((k, v) :: l) → assoc l k = None.
Proof.
  intros [H _]%ksorted_cons. by apply assoc_notin, Forall_lt_notin.
Qed.







End assoc_lists.

(** Tagging every index of a list with the same value. *)
Lemma zip_repeat {A} (ks : list (list Z)) (v : A) n :
  length ks = n → zip ks (repeat v n) = map (fun c => (c, v)) ks.
Proof.
  intros <-. induction ks as [|k ks IH]; simpl; [done|]. by rewrite IH.
Qed.


Lemma tag_assoc {A} (ks : list (list Z)) (v : A) c :
  assoc (map (fun c => (c, v)) ks) c = if bool_decide (c ∈ ks) then Some v else None.
Proof.
  induction ks as [|k ks IH]; simpl; [done|].
  destruct (decide (k = c)) as [<-|Hne].
  - rewrite bool_decide_eq_true_2; [done|]. apply elem_of_cons; auto.
  - rewrite IH. apply (f_equal (fun b : bool => if b then Some v else None)).
    apply bool_decide_ext. rewrite elem_of_cons.
    split; [auto | intros [?|?]; [congruence|done]].
Qed.

(** ** The merge of sparse addition *)








(** ** Sparse tensors in canonical form *)

Lemma bind_Ok {A B} (a : A) (f : A → result B) : (Ok a ≫= f) = f a.
Proof. reflexivity. Qed.

Lemma canonical_spec {A} (sp : SparseTensor A) :
  canonical sp = true ↔
  length (indices sp) = length (values sp)
  ∧ Forall (fun c => length c = length (dense_shape sp)) (indices sp)
  ∧ StronglySorted lt_c (indices sp).
Proof.
  unfold canonical. rewrite !andb_true_iff, Nat.eqb_eq, forallb_forall,
    increasing_sorted, Forall_forall.
  setoid_rewrite Nat.eqb_eq. setoid_rewrite list_elem_of_In. tauto.
Qed.

Lemma entries_keys {A} (sp : SparseTensor A) :
  length (indices sp) = length (values sp) → (entries sp).*1 = indices sp.
Proof. intros H. apply fst_zip. lia. Qed.





Lemma sorted_assoc_elem {A} (l : list (list Z * A)) c v :
  ksorted l → (c, v) ∈ l → assoc l c = Some v.
Proof.
  induction l as [|[k w] l IH]; [by intros _ ?%elem_of_nil|].
  intros [F Hs]%ksorted_cons [[= -> ->]|Hin]%elem_of_cons; simpl.
  - by rewrite decide_True.
  - rewrite decide_False; [by apply IH|].
    intros ->. apply (Forall_lt_notin c (l.*1) F).
    apply list_elem_of_fmap. by exists (c, v).
Qed.

Lemma canonical_get {A} (sp : SparseTensor A) i c v :
  canonical sp = true →
  indices sp !! i = Some c → values sp !! i = Some v → sp_get sp c = Some v.
Proof.
  intros (L & _ & Hs)%canonical_spec Hi Hv.
  apply sorted_assoc_elem.
  - unfold ksorted. by rewrite entries_keys.
  - apply list_elem_of_lookup. exists i. by apply lookup_zip_Some.
Qed.

Lemma sp_get_None {A} (sp : SparseTensor A) c :
  length (indices sp) = length (values sp) →
  sp_get sp c = None ↔ c ∉ indices sp.
Proof.
  intros L. unfold sp_get. by rewrite assoc_None_iff, entries_keys.
Qed.


(** ** [sparse_put]: override and idempotence *)


Example ex_sparse_put :
  sparse_put ex_sp_tensor ex_sp_updates =
  Ok (mkSparse [[0; 0]; [0; 1]; [0; 2]; [1; 0]; [1; 1]] [5; 9; 0; -4; 7] [2; 3]).
Proof. reflexivity. Qed.




(** ** Row-major offsets and coordinates *)

Lemma unravel_length s k : length (unravel s k) = length s.
Proof. revert k. induction s as [|d s IH]; intros k; simpl; auto. Qed.

Lemma ravel_unravel s k : (k < size s)%nat → ravel s (unravel s k) = k.
Proof.
  revert k. induction s as [|d s IH]; intros k; simpl; [lia|].
  intros Hk. assert (size s ≠ 0)%nat as Hp by lia.
  rewrite IH by (by apply Nat.mod_upper_bound).
  pose proof (Nat.div_mod_eq k (size s)). lia.
Qed.


Lemma size_cons d s : size (d :: s) = (d * size s)%nat.
Proof. reflexivity. Qed.

Lemma ravel_cons d s x c :
  ravel (d :: s) (x :: c) = (x * size s + ravel s c)%nat.
Proof. reflexivity. Qed.

Lemma unravel_cons d s k :
  unravel (d :: s) k = (k / size s)%nat :: unravel s (k mod size s)%nat.
Proof. reflexivity. Qed.

Lemma in_bounds_cons d ds x c :
  in_bounds (d :: ds) (x :: c) = true ↔ (0 ≤ x < d) ∧ in_bounds ds c = true.
Proof.
  simpl. rewrite !andb_true_iff, Z.leb_le, Z.ltb_lt. tauto.
Qed.

Lemma in_bounds_ravel s c :
  in_bounds (Z.of_nat <$> s) c = true →
  (ravel s (Z.to_nat <$> c) < size s)%nat
  ∧ coord_of s (ravel s (Z.to_nat <$> c)) = c.
Proof.
  unfold coord_of. revert c.
  induction s as [|d s IH]; intros [|x c]; try done.
  { intros _. split; [simpl; lia|done]. }
  rewrite !fmap_cons. intros [[Hx0 Hxd] Hc]%in_bounds_cons.
  destruct (IH c Hc) as [Hlt Hco].
  rewrite ravel_cons, size_cons, unravel_cons, fmap_cons.
  set (r := ravel s (Z.to_nat <$> c)) in *. set (p := size s) in *.
  assert (p ≠ 0)%nat as Hp by lia.
  assert ((Z.to_nat x * p + r) / p = Z.to_nat x)%nat as Hq.
  { rewrite Nat.div_add_l by done. rewrite (Nat.div_small r p) by done. lia. }
  assert ((Z.to_nat x * p + r) mod p = r)%nat as Hr.
  { rewrite Nat.add_comm, Nat.Div0.mod_add. by apply Nat.mod_small. }
  split.
  - assert (Z.to_nat x + 1 <= d)%nat as Hxd' by lia.
    pose proof (Nat.mul_le_mono_r _ _ p Hxd'). lia.
  - rewrite Hq, Hr, Hco. f_equal. lia.
Qed.

Lemma to_nat_of_nat (l : list nat) : Z.to_nat <$> (Z.of_nat <$> l) = l.
Proof.
  induction l as [|x l IH]; [done|].
  rewrite !fmap_cons, IH, Nat2Z.id. done.
Qed.

Lemma ravel_coord_of s k :
  (k < size s)%nat → ravel s (Z.to_nat <$> coord_of s k) = k.
Proof.
  intros Hk. unfold coord_of. rewrite to_nat_of_nat. by apply ravel_unravel.
Qed.


(** ** Scattering sparse entries into a dense array *)

Lemma scatter_cons {A} s (e : list Z * A) es init :
  scatter s (e :: es) init =
  scatter s es (<[ravel s (Z.to_nat <$> e.1) := e.2]> init).
Proof. reflexivity. Qed.

Lemma length_scatter {A} s (es : list (list Z * A)) init :
  length (scatter s es init) = length init.
Proof.
  revert init. induction es as [|e es IH]; intros init; [done|].
  by rewrite scatter_cons, IH, length_insert.
Qed.

Lemma scatter_lookup {A} s (es : list (list Z * A)) init k :
  ksorted es →
  Forall (fun c => in_bounds (Z.of_nat <$> s) c = true) (es.*1) →
  length init = size s → (k < size s)%nat →
  scatter s es init !! k =
  match assoc es (coord_of s k) with Some v => Some v | None => init !! k end.
Proof.
  revert init. induction es as [|[c v] es IH]; intros init Hs Hb Hl Hk; [done|].
  pose proof (ksorted_head_None _ _ _ Hs) as Hnone.
  apply ksorted_cons in Hs as [_ Hs].
  rewrite fmap_cons, Forall_cons in Hb. destruct Hb as [Hc Hb].
  destruct (in_bounds_ravel s c Hc) as [Hlt Hco]. simpl in Hc.
  rewrite scatter_cons, IH; [|done..|by rewrite length_insert|done].
  simpl. destruct (decide (c = coord_of s k)) as [->|Hne].
  - rewrite Hnone, ravel_coord_of by done.
    apply list_lookup_insert_eq. lia.
  - destruct (assoc es (coord_of s k)); [done|].
    apply list_lookup_insert_ne. intros E. apply Hne. by rewrite <-E.
Qed.

Lemma sparse_tensor_to_dense_ok (sp : SparseTensor Z) d s :
  dense_shape sp = Z.of_nat <$> s →
  length (indices sp) = length (values sp) →
  indices_valid sp = true →
  sparse_tensor_to_dense sp d =
  Ok (mkTensor s (scatter s (entries sp) (repeat d (size s)))).
Proof.
  intros Hd Hl Hv. unfold sparse_tensor_to_dense. rewrite Hv, Hd.
  replace (forallb (Z.leb 0) (Z.of_nat <$> s)) with true.
  - apply Nat.eqb_eq in Hl. rewrite Hl. simpl. by rewrite to_nat_of_nat.
  - symmetry. apply forallb_forall. intros x Hx.
    apply list_elem_of_In, list_elem_of_fmap in Hx as [n [-> _]].
    apply Z.leb_le. lia.
Qed.

(** ** [to_sparse] and the round trip *)













(** The example of the docstring of [to_sparse]. *)
Example ex_to_sparse_docstring :
  to_sparse (mkTensor [2; 2]%nat [1; 0; 2; 3]) =
  Ok (mkSparse [[0; 0]; [1; 0]; [1; 1]] [1; 2; 3] [2; 2]).
Proof. reflexivity. Qed.

(** [to_dense] refuses what is not a [SparseTensor]. *)
Example ex_to_dense_type_error : to_dense (IsTensor ex_tensor) = Err TypeError.
Proof. reflexivity. Qed.

(** ** [dense_put] *)

Lemma valid_sparse_spec {A} (sp : SparseTensor A) :
  valid_sparse sp = true ↔
  canonical sp = true
  ∧ Forall (fun c => in_bounds (dense_shape sp) c = true) (indices sp).
Proof.
  unfold valid_sparse. rewrite andb_true_iff, forallb_forall, Forall_forall.
  setoid_rewrite list_elem_of_In. tauto.
Qed.

Lemma valid_sparse_indices_valid {A} (sp : SparseTensor A) :
  valid_sparse sp = true → indices_valid sp = true.
Proof.
  unfold valid_sparse, canonical, indices_valid.
  rewrite !andb_true_iff. tauto.
Qed.

Lemma repeat_lookup {A} (x : A) n k : (k < n)%nat → repeat x n !! k = Some x.
Proof.
  revert k. induction n as [|n IH]; intros [|k] Hk; simpl; try lia; [done|].
  apply IH. lia.
Qed.

(** The elements of [sparse_tensor_to_dense sp d]. *)
Lemma to_dense_lookup (sp : SparseTensor Z) d s k :
  valid_sparse sp = true → dense_shape sp = Z.of_nat <$> s →
  (k < size s)%nat →
  scatter s (entries sp) (repeat d (size s)) !! k =
  Some (default d (sp_get sp (coord_of s k))).
Proof.
  intros [(L & _ & Hs)%canonical_spec Hb]%valid_sparse_spec Hd Hk.
  rewrite scatter_lookup; [| | |by rewrite repeat_length|done].
  - unfold sp_get. destruct (assoc _ _); [done|]. by apply repeat_lookup.
  - unfold ksorted. by rewrite entries_keys.
  - rewrite entries_keys by done. by rewrite <-Hd.
Qed.

Lemma not_equal_lookup l v k :
  not_equal l v !! k = (fun x => negb (x =? v)) <$> (l !! k).
Proof. unfold not_equal. apply list_lookup_fmap. Qed.



Example ex_dense_put :
  dense_put ex_tensor ex_sp_updates =
  Ok (mkTensor [2; 3]%nat [1; 9; 0; -4; 0; 3]).
Proof. reflexivity. Qed.

(** ** [batch_to_matrix_indices] *)

Lemma to_tensor_cast_dtype x dtype : dtype_of (to_tensor_cast x dtype) = dtype.
Proof.
  unfold to_tensor_cast. case_bool_decide as H; [done|].
  by destruct (decide (dtype_of x = dtype)).
Qed.

Lemma to_tensor_cast_tensor x dtype :
  tensor_of (to_tensor_cast x dtype) = tensor_of x.
Proof. unfold to_tensor_cast. by case_bool_decide. Qed.

Lemma chunks_singletons {A} (l : list A) :
  chunks 1 (length l) l = (fun x => [x]) <$> l.
Proof. induction l as [|x l IH]; [done|]. simpl. by rewrite drop_0, IH. Qed.

Lemma concat_repeat_singleton {A} (x : A) m : concat (repeat [x] m) = repeat x m.
Proof. induction m as [|m IH]; [done|]. simpl. by rewrite IH. Qed.

(** Tiling a column [[n; 1]] by [[1; m]] repeats each element [m] times. *)
Lemma tile_data_column {A} (l : list A) m :
  tile_data [length l; 1%nat] [1%nat; m] l = concat ((fun x => repeat x m) <$> l).
Proof.
  cbn [tile_data]. change (size [1%nat]) with 1%nat.
  rewrite chunks_singletons. cbn [repeat concat]. rewrite app_nil_r.
  f_equal. rewrite <-list_fmap_compose. apply list_fmap_ext.
  intros _ x _. cbn. apply concat_repeat_singleton.
Qed.

(** Element [i * w + j] of a concatenation of blocks of length [w]. *)
Lemma concat_lookup_uniform {A} (bs : list (list A)) w i j b :
  Forall (fun b => length b = w) bs → bs !! i = Some b → (j < w)%nat →
  concat bs !! (i * w + j)%nat = b !! j.
Proof.
  revert i. induction bs as [|b0 bs IH]; intros i Hw Hi Hj; [done|].
  apply Forall_cons in Hw as [Hb0 Hw]. simpl.
  destruct i as [|i]; simpl in *.
  - injection Hi as ->. apply lookup_app_l. lia.
  - rewrite lookup_app_r by lia.
    replace (w + i * w + j - length b0)%nat with (i * w + j)%nat by lia.
    by apply IH.
Qed.

Lemma length_concat_uniform {A} (bs : list (list A)) w :
  Forall (fun b => length b = w) bs → length (concat bs) = (length bs * w)%nat.
Proof.
  induction 1 as [|b bs Hb _ IH]; [done|]. simpl. rewrite length_app. lia.
Qed.

Lemma tensor_at_2d {A} (t : Tensor A) p q r c :
  shape t = [p; q] → (r < p)%nat → (c < q)%nat →
  tensor_at t [Z.of_nat r; Z.of_nat c] = data t !! (r * q + c)%nat.
Proof.
  intros Hs Hr Hc. unfold tensor_at, shape_of. rewrite Hs.
  assert (in_bounds (Z.of_nat <$> [p; q]) [Z.of_nat r; Z.of_nat c] = true) as ->.
  { rewrite !fmap_cons. apply in_bounds_cons. split; [lia|].
    apply in_bounds_cons. split; [lia|done]. }
  f_equal. cbn. rewrite !Nat2Z.id. lia.
Qed.


Lemma length_pairs {A} (xs ys : list A) :
  length xs = length ys →
  length (concat (zip_with (fun a b => [a; b]) xs ys)) = (2 * length xs)%nat.
Proof.
  intros Hl. rewrite (length_concat_uniform _ 2).
  - rewrite length_zip_with. lia.
  - apply Forall_forall. intros l (i & x & y & -> & _)%elem_of_lookup_zip_with.
    done.
Qed.

Lemma reshape_pairs {A} (t : Tensor A) k :
  length (data t) = (2 * k)%nat →
  reshape t [-1; 2] = Ok (mkTensor [k; 2%nat] (data t)).
Proof.
  intros Hl. unfold reshape. rewrite Hl. cbn -[Nat.modulo Nat.div Nat.mul].
  change (Z.to_nat 2 * 1)%nat with 2%nat. change (Z.to_nat 2) with 2%nat.
  replace ((2 * k) mod 2)%nat with 0%nat
    by (symmetry; rewrite Nat.mul_comm; apply Nat.Div0.mod_mul).
  replace ((2 * k) / 2)%nat with k
    by (symmetry; rewrite Nat.mul_comm; by apply Nat.div_mul).
  done.
Qed.


Lemma length_tiled_rows n m :
  length (concat ((fun x => repeat x m) <$> (Z.of_nat <$> seq 0 n))) = (n * m)%nat.
Proof.
  rewrite (length_concat_uniform _ m).
  - by rewrite !length_fmap, length_seq.
  - apply Forall_forall. intros l [x [-> _]]%list_elem_of_fmap.
    apply repeat_length.
Qed.

(** What [batch_to_matrix_indices] returns for an [n x m] batch. *)
Lemma batch_to_matrix_indices_ok (tensor : DTensor) (dtype : DType) (n m : nat) :
  dtype = int32 ∨ dtype = int64 →
  shape (tensor_of tensor) = [n; m] →
  well_shaped (tensor_of tensor) = true →
  batch_to_matrix_indices tensor dtype =
  Ok (mkDTensor dtype
        (mkTensor [(n * m)%nat; 2%nat]
           (concat (zip_with (fun a b => [a; b])
                      (concat ((fun x => repeat x m) <$> (Z.of_nat <$> seq 0 n)))
                      (data (tensor_of tensor)))))).
Proof.
  intros Hdt Hs Hw. unfold well_shaped in Hw. rewrite Hs in Hw.
  apply Nat.eqb_eq in Hw. change (size [n; m]) with (n * (m * 1))%nat in Hw.
  unfold batch_to_matrix_indices.
  rewrite to_tensor_cast_dtype, to_tensor_cast_tensor, Hs.
  replace (bool_decide (dtype ≠ int32) && bool_decide (dtype ≠ int64)) with false
    by (by destruct Hdt as [-> | ->]).
  cbn [with_rank length Nat.eqb]. rewrite bind_Ok.
  cbn [dim lookup list_lookup]. rewrite !bind_Ok.
  unfold expand_dims, range. cbn [shape data length Nat.leb take drop app].
  rewrite bind_Ok. unfold tile. cbn [shape data length Nat.eqb negb zip_with].
  rewrite bind_Ok. rewrite Nat.mul_1_r, Nat.mul_1_l.
  unfold stack_last. cbn [shape data]. rewrite Hs.
  rewrite bool_decide_eq_true_2 by done. cbn [negb]. rewrite bind_Ok.
  replace (tile_data [n; 1%nat] [1%nat; m] (Z.of_nat <$> seq 0 n))
    with (concat ((fun x => repeat x m) <$> (Z.of_nat <$> seq 0 n))).
  2:{ rewrite <-tile_data_column. by rewrite length_fmap, length_seq. }
  rewrite (reshape_pairs _ (n * m)); [done|].
  cbn [data]. rewrite length_pairs; rewrite length_tiled_rows; lia.
Qed.




Example ex_batch_to_matrix_indices :
  batch_to_matrix_indices ex_batch int32 =
  Ok (mkDTensor int32 (mkTensor [4; 2]%nat [0; 1; 0; 2; 1; 2; 1; 5])).
Proof. reflexivity. Qed.

(** C9, as the code has it.  The input is cast to the requested [dtype]
    before its element type is looked at, so the type error depends on
    [dtype] alone: [batch_to_matrix_indices] raises [TypeError] exactly when
    [dtype] is neither int32 nor int64, whatever the element type of the
    input. *)
Theorem batch_to_matrix_indices_type_error (tensor : DTensor) (dtype : DType) :
  batch_to_matrix_indices tensor dtype = Err TypeError
  ↔ dtype ≠ int32 ∧ dtype ≠ int64.
Proof.
  unfold batch_to_matrix_indices. rewrite to_tensor_cast_dtype.
  split.
  - intros H. destruct (decide (dtype = int32)) as [->|H1];
      [|destruct (decide (dtype = int64)) as [->|H2]; [|done]]; exfalso;
      rewrite ?(bool_decide_eq_false_2 (int32 ≠ int32)) in H by tauto;
      rewrite ?(bool_decide_eq_false_2 (int64 ≠ int64)) in H by tauto;
      rewrite ?andb_false_r in H; cbn [andb] in H.
    all: unfold with_rank, dim, expand_dims, tile, stack_last, reshape in H.
    all: repeat match type of H with
           | context [if ?b then _ else _] => destruct b; cbn in H
           | context [match ?x with _ => _ end] => destruct x; cbn in H
           end; try discriminate.
  - intros [H1 H2]. by rewrite !bool_decide_eq_true_2.
Qed.

(** C9 as stated fails: a float32 batch is accepted, since it is cast to the
    default int32 before the check. *)
Lemma batch_to_matrix_indices_type_error_counterexample :
  dtype_of ex_float_batch ≠ int32 ∧ dtype_of ex_float_batch ≠ int64
  ∧ batch_to_matrix_indices ex_float_batch int32
    = Ok (mkDTensor int32 (mkTensor [4; 2]%nat [0; 1; 0; 2; 1; 2; 1; 5])).
Proof. repeat split; done. Qed.

(** Conversely an int32 batch is refused when float32 is asked for. *)
Example ex_batch_float_request :
  batch_to_matrix_indices ex_batch float32 = Err TypeError.
Proof. reflexivity. Qed.

(** ** [index_list_to_sparse] *)

Lemma row_loop_Some row indexes ds idx bound :
  ds !! 1%nat = Some bound →
  row_loop row indexes ds idx =
  if existsb (fun i => i >=? bound) indexes then Err ValueError
  else Ok (idx ++ ((fun i => [row; i]) <$> indexes)).
Proof.
  intros Hb. revert idx. induction indexes as [|i indexes IH]; intros idx.
  { simpl. by rewrite app_nil_r. }
  cbn [row_loop existsb]. rewrite Hb. destruct (i >=? bound); [done|].
  cbn [orb]. rewrite IH. destruct (existsb _ indexes); [done|].
  by rewrite fmap_cons, <-app_assoc.
Qed.

Lemma row_loop_None row indexes ds idx :
  ds !! 1%nat = None →
  row_loop row indexes ds idx =
  match indexes with [] => Ok idx | _ :: _ => Err IndexError end.
Proof. intros Hb. destruct indexes; simpl; by rewrite ?Hb. Qed.

Lemma rows_loop_Some row indices ds idx bound :
  ds !! 1%nat = Some bound →
  rows_loop row indices ds idx =
  if existsb (fun i => i >=? bound) (concat indices) then Err ValueError
  else Ok (idx ++ row_pairs row indices).
Proof.
  intros Hb. revert row idx.
  induction indices as [|indexes indices IH]; intros row idx.
  { simpl. by rewrite app_nil_r. }
  cbn [rows_loop concat row_pairs]. rewrite existsb_app.
  rewrite (row_loop_Some _ _ _ _ _ Hb).
  destruct (existsb _ indexes); [done|]. rewrite bind_Ok, IH. cbn [orb].
  destruct (existsb _ (concat indices)); [done|]. by rewrite <-app_assoc.
Qed.

Lemma rows_loop_None row indices ds idx :
  ds !! 1%nat = None →
  rows_loop row indices ds idx =
  match concat indices with [] => Ok idx | _ :: _ => Err IndexError end.
Proof.
  intros Hb. revert row idx.
  induction indices as [|indexes indices IH]; intros row idx; [done|].
  cbn [rows_loop concat]. rewrite (row_loop_None _ _ _ _ Hb).
  destruct indexes; [|done]. rewrite bind_Ok. apply IH.
Qed.

Lemma existsb_ge l bound :
  existsb (fun i => i >=? bound) l = true ↔ ∃ i, i ∈ l ∧ i >= bound.
Proof.
  rewrite existsb_exists. setoid_rewrite list_elem_of_In.
  setoid_rewrite Z.geb_le. setoid_rewrite Z.ge_le_iff. done.
Qed.

Lemma length_row_pairs row indices :
  length (row_pairs row indices) = length (concat indices).
Proof.
  revert row. induction indices as [|l indices IH]; intros row; [done|].
  simpl. by rewrite !length_app, length_fmap, IH.
Qed.

Lemma row_pairs_elem r0 indices row indexes i :
  indices !! row = Some indexes → i ∈ indexes →
  [r0 + Z.of_nat row; i] ∈ row_pairs r0 indices.
Proof.
  revert r0 row. induction indices as [|l indices IH]; intros r0 row Hrow Hi;
    [done|].
  cbn [row_pairs]. apply elem_of_app. destruct row as [|row]; simpl in Hrow.
  - injection Hrow as ->. left. rewrite Z.add_0_r.
    apply list_elem_of_fmap. by exists i.
  - right. replace (r0 + Z.of_nat (S row)) with ((r0 + 1) + Z.of_nat row) by lia.
    by apply IH.
Qed.

(** What the function returns when no index reaches the bound. *)
Lemma index_list_to_sparse_ok indices ds bound :
  ds !! 1%nat = Some bound →
  (∀ i, i ∈ concat indices → i < bound) →
  index_list_to_sparse indices ds =
  Ok (mkSparseValue (row_pairs 0 indices)
                    (ones (length (row_pairs 0 indices))) ds).
Proof.
  intros Hb Hlt. unfold index_list_to_sparse.
  rewrite (rows_loop_Some _ _ _ _ _ Hb).
  destruct (existsb _ (concat indices)) eqn:E; [|done].
  apply existsb_ge in E as (i & Hi & Hge). specialize (Hlt i Hi). lia.
Qed.


(** C10. Only the upper bound of an index is checked.  At an index below
    [dense_shape[1]], negative or not, the loop raises nothing and appends the
    pair [[row; i]]; so when every listed index is below [dense_shape[1]],
    negative ones included, no error is raised and every pair [[row; i]] is
    among the returned indices.  The row numbers are not compared with
    [dense_shape[0]], which may be any number. *)
Theorem index_list_to_sparse_negative
    (indices : list (list Z)) (d0 bound : Z) (rest : list Z) :
  (∀ i, i ∈ concat indices → i < bound) →
  (∀ row i indexes idx, i < bound →
     row_loop row (i :: indexes) (d0 :: bound :: rest) idx
     = row_loop row indexes (d0 :: bound :: rest) (idx ++ [[row; i]]))
  ∧ ∃ sp, index_list_to_sparse indices (d0 :: bound :: rest) = Ok sp
      ∧ v_indices sp = row_pairs 0 indices
      ∧ (∀ row indexes i, indices !! row = Some indexes → i ∈ indexes →
           [Z.of_nat row; i] ∈ v_indices sp).
Proof.
  intros Hlt. split.
  - intros row i indexes idx Hi. cbn [row_loop lookup list_lookup].
    destruct (Z.geb_spec i bound); [lia|done].
  - rewrite (index_list_to_sparse_ok indices (d0 :: bound :: rest) bound
               eq_refl Hlt).
    eexists. split; [reflexivity|]. split; [done|].
    intros row indexes i Hrow Hi. cbn [v_indices].
    by apply (row_pairs_elem 0 indices row indexes i).
Qed.

(** Two rows for a [dense_shape] of one row, and negative indices. *)
Lemma index_list_to_sparse_negative_witness :
  (∀ row i indexes idx, i < 10 →
     row_loop row (i :: indexes) [1; 10] idx
     = row_loop row indexes [1; 10] (idx ++ [[row; i]]))
  ∧ ∃ sp, index_list_to_sparse ex_index_list [1; 10] = Ok sp
      ∧ v_indices sp = row_pairs 0 ex_index_list
      ∧ (∀ row indexes i, ex_index_list !! row = Some indexes → i ∈ indexes →
           [Z.of_nat row; i] ∈ v_indices sp).
Proof.
  apply (index_list_to_sparse_negative ex_index_list 1 10 []).
  intros i Hi. unfold ex_index_list in Hi. simpl in Hi.
  repeat (apply elem_of_cons in Hi as [->|Hi]; [lia|]).
  by apply elem_of_nil in Hi.
Defined.

(** The example of the docstring of [index_list_to_sparse]. *)
Example ex_index_list_docstring :
  index_list_to_sparse [[0; 5]; [0; 2; 7]; [1]] [3; 10] =
  Ok (mkSparseValue [[0; 0]; [0; 5]; [1; 0]; [1; 2]; [1; 7]; [2; 1]]
                    [1; 1; 1; 1; 1; 1] [3; 10]).
Proof. reflexivity. Qed.

Example ex_index_list_to_sparse :
  index_list_to_sparse ex_index_list [1; 10] =
  Ok (mkSparseValue [[0; -3]; [1; 2]; [1; -1]] [1; 1; 1] [1; 10]).
Proof. reflexivity. Qed.

(** ** [sparse_dropout] *)

Lemma gather_true_filter {A} (p : A → bool) (l : list A) :
  gather_true l (p <$> l) = List.filter p l.
Proof.
  induction l as [|x l IH]; [done|]. rewrite fmap_cons. cbn [gather_true List.filter].
  by rewrite IH.
Qed.

Lemma gather_true_zip {A B} (l1 : list A) (l2 : list B) mask :
  length l1 = length l2 →
  zip (gather_true l1 mask) (gather_true l2 mask) = gather_true (zip l1 l2) mask.
Proof.
  revert l2 mask. induction l1 as [|x l1 IH]; intros [|y l2] [|[] mask] Hl;
    simpl in *; try done; try lia.
  - f_equal. apply IH. lia.
  - apply IH. lia.
Qed.

Lemma dropout_ok x keep_prob noise :
  (0 < keep_prob)%Q → (keep_prob <= 1)%Q →
  ∃ drop_values, dropout x keep_prob noise = Ok drop_values
               ∧ length drop_values = length x.
Proof.
  intros H0 H1. unfold dropout.
  assert (Qle_bool keep_prob 0 = false) as ->.
  { destruct (Qle_bool keep_prob 0) eqn:E; [|done].
    apply Qle_bool_iff in E. exfalso. exact (Qlt_not_le _ _ H0 E). }
  assert (Qle_bool keep_prob 1 = true) as -> by (by apply Qle_bool_iff).
  cbn [negb andb]. destruct (Qeq_bool keep_prob 1).
  - by exists x.
  - eexists. split; [reflexivity|]. apply length_imap.
Qed.

Lemma dropout_below_one x keep_prob noise :
  (0 < keep_prob)%Q → (keep_prob < 1)%Q →
  dropout x keep_prob noise =
  Ok (imap (fun i v =>
              (v / keep_prob * inject_Z (Qfloor (keep_prob + noise i)))%Q) x).
Proof.
  intros H0 H1. unfold dropout.
  assert (Qle_bool keep_prob 0 = false) as ->.
  { destruct (Qle_bool keep_prob 0) eqn:E; [|done].
    apply Qle_bool_iff in E. exfalso. exact (Qlt_not_le _ _ H0 E). }
  assert (Qle_bool keep_prob 1 = true) as ->
    by (by apply Qle_bool_iff, Qlt_le_weak).
  assert (Qeq_bool keep_prob 1 = false) as ->; [|done].
  destruct (Qeq_bool keep_prob 1) eqn:E; [|done].
  apply Qeq_bool_iff in E. rewrite E in H1. by apply Qlt_irrefl in H1.
Qed.

Lemma dropout_zero_keep_prob x noise : dropout x 0 noise = Err ValueError.
Proof. reflexivity. Qed.

Lemma Qfloor_unit x : (0 <= x)%Q → (x < 1)%Q → Qfloor x = 0.
Proof.
  intros H0 H1.
  assert (0 ≤ Qfloor x) as Hlo.
  { rewrite <-(Qfloor_Z 0). by apply Qfloor_resp_le. }
  assert (Qfloor x < 1) as Hhi.
  { rewrite Zlt_Qlt. eapply Qle_lt_trans; [apply Qfloor_le|done]. }
  lia.
Qed.

(** C7, as the code has it.  For [keep_prob] in (0, 1], [sparse_dropout]
    returns the index/value pairs whose value is non-zero after dropout, in
    their order, with the [dense_shape] of the input: zeroed entries are
    removed.  When every sample falls below [1 - keep_prob], every value is
    zeroed and the result has no indices and no values. *)
Theorem sparse_dropout_compacts
    (sp_tensor : SparseTensor Q) (keep_prob : Q) (noise : nat → Q) :
  (0 < keep_prob)%Q → (keep_prob <= 1)%Q →
  length (indices sp_tensor) = length (values sp_tensor) →
  ∃ drop_values r,
    dropout (values sp_tensor) keep_prob noise = Ok drop_values
    ∧ sparse_dropout sp_tensor keep_prob noise = Ok r
    ∧ dense_shape r = dense_shape sp_tensor
    ∧ entries r = List.filter (fun e => negb (Qeq_bool e.2 0))
                              (zip (indices sp_tensor) drop_values)
    ∧ length (indices r) = length (values r)
    ∧ Forall (fun v => ¬ (v == 0)%Q) (values r)
    ∧ ((keep_prob < 1)%Q →
       (∀ i, (0 <= noise i)%Q ∧ (keep_prob + noise i < 1)%Q) →
       indices r = [] ∧ values r = []).
Proof.
  intros H0 H1 Hlen.
  destruct (dropout_ok (values sp_tensor) keep_prob noise H0 H1)
    as (dv & Hdv & Hl).
  exists dv. unfold sparse_dropout. rewrite Hdv, bind_Ok.
  set (m := q_not_equal dv 0).
  assert (length m = length dv) as Hm by apply length_fmap.
  unfold boolean_mask.
  replace (length dv =? length m)%nat with true
    by (symmetry; apply Nat.eqb_eq; lia).
  rewrite bind_Ok.
  replace (length (indices sp_tensor) =? length m)%nat with true
    by (symmetry; apply Nat.eqb_eq; lia).
  rewrite bind_Ok.
  assert (gather_true dv m = List.filter (fun v => negb (Qeq_bool v 0)) dv)
    as Hvals by apply gather_true_filter.
  eexists. split; [done|]. split; [reflexivity|]. split; [done|].
  unfold entries. cbn [indices values].
  assert (zip (gather_true (indices sp_tensor) m) (gather_true dv m)
          = List.filter (fun e => negb (Qeq_bool e.2 0))
                        (zip (indices sp_tensor) dv)) as Hent.
  { rewrite gather_true_zip by lia. rewrite <-gather_true_filter. f_equal.
    unfold m, q_not_equal.
    rewrite <-(snd_zip (indices sp_tensor) dv) at 1 by lia.
    by rewrite <-list_fmap_compose. }
  split; [done|]. split; [|split].
  - assert (∀ (l : list (list Z)) (k : list Q) mk, length l = length k →
              length (gather_true l mk) = length (gather_true k mk)) as Hg.
    { clear. intros l. induction l as [|x l IH]; intros [|y k] [|[] mk] Hl;
        simpl in *; try done; try lia; rewrite (IH k mk) by lia; done. }
    apply Hg. lia.
  - rewrite Hvals. apply Forall_forall. intros v Hv%list_elem_of_In.
    apply filter_In in Hv as [_ Hv]. apply negb_true_iff in Hv.
    by apply Qeq_bool_neq.
  - intros Hlt Hnoise.
    assert (m = repeat false (length dv)) as Hfalse.
    { assert (dv = imap (fun i v =>
                (v / keep_prob * inject_Z (Qfloor (keep_prob + noise i)))%Q)
                (values sp_tensor)) as ->
        by (rewrite dropout_below_one in Hdv by done; congruence).
      unfold m, q_not_equal. rewrite length_imap.
      apply list_eq. intros i. rewrite list_lookup_fmap, list_lookup_imap.
      destruct (values sp_tensor !! i) as [v|] eqn:Hv;
        cbn [fmap option_fmap option_map].
      - rewrite repeat_lookup by (by eapply lookup_lt_Some).
        destruct (Hnoise i) as [Hn0 Hn1].
        rewrite Qfloor_unit; [| |done].
        + f_equal. apply negb_false_iff, Qeq_bool_iff. apply Qmult_0_r.
        + apply Qle_trans with (0 + 0)%Q; [done|].
          apply Qplus_le_compat; [by apply Qlt_le_weak|done].
      - symmetry. apply lookup_ge_None. rewrite repeat_length.
        by apply lookup_ge_None. }
    assert (∀ {A} (l : list A) n, gather_true l (repeat false n) = []) as Hnil.
    { clear. intros A l. induction l as [|x l IH]; intros [|n]; simpl; auto. }
    by rewrite Hfalse, !Hnil.
Qed.

Lemma sparse_dropout_compacts_witness :
  ∃ drop_values r,
    dropout (values ex_sp_q) (1 # 2) ex_noise = Ok drop_values
    ∧ sparse_dropout ex_sp_q (1 # 2) ex_noise = Ok r
    ∧ dense_shape r = dense_shape ex_sp_q
    ∧ entries r = List.filter (fun e => negb (Qeq_bool e.2 0))
                              (zip (indices ex_sp_q) drop_values)
    ∧ length (indices r) = length (values r)
    ∧ Forall (fun v => ¬ (v == 0)%Q) (values r)
    ∧ (((1 # 2) < 1)%Q →
       (∀ i, (0 <= ex_noise i)%Q ∧ ((1 # 2) + ex_noise i < 1)%Q) →
       indices r = [] ∧ values r = []).
Proof.
  apply (sparse_dropout_compacts ex_sp_q (1 # 2) ex_noise);
    [reflexivity | unfold Qle; simpl; lia | reflexivity].
Defined.

Example ex_sparse_dropout :
  sparse_dropout ex_sp_q (1 # 2) ex_noise =
  Ok (mkSparse [[0; 0]] [2 # 2]%Q [2; 3]).
Proof. reflexivity. Qed.

(** C7 as stated fails for [keep_prob = 0]: the dropout of the runtime
    refuses it, and no sparse tensor is returned. *)
Lemma sparse_dropout_zero_keep_prob_counterexample :
  sparse_dropout ex_sp_q 0 ex_noise = Err ValueError.
Proof. reflexivity. Qed.

(** ** [complete_shape] *)

Lemma complete_shape_defined {A} (tensor : Tensor A) shape dtype :
  is_fully_defined (TensorShape shape) = true →
  complete_shape tensor shape dtype = Ok (SameShape shape).
Proof. intros H. unfold complete_shape. by rewrite H. Qed.

(** With a [TensorShape] whose leading dimension is unknown and whose second
    dimension is [d], the result is the pair of the leading dimension of the
    reference tensor and [d]. *)
Lemma complete_shape_tensor_shape {A} (tensor : Tensor A) dims d b rest dtype :
  is_fully_defined dims = false → dims !! 1%nat = Some (Some d) →
  shape tensor = b :: rest →
  complete_shape tensor (PyTensorShape dims) dtype =
  Ok (ShapeTensor (mkDTensor dtype (mkTensor [2%nat] [Z.of_nat b; Z.of_nat d]))).
Proof.
  intros Hf Hd Hs. unfold complete_shape. cbn [TensorShape as_list].
  rewrite Hf, bind_Ok. unfold list_item, shape_of. by rewrite Hd, Hs.
Qed.

(** With a Python list that is not fully defined, [shape.as_list()] is
    called on the list itself. *)
Lemma complete_shape_list {A} (tensor : Tensor A) dims dtype :
  is_fully_defined dims = false →
  complete_shape tensor (PyList dims) dtype = Err AttributeError.
Proof. intros Hf. unfold complete_shape. cbn [TensorShape]. by rewrite Hf. Qed.

(** C8 at the input of the spec's example.  Given the list [[None, 5]] and a
    reference tensor with leading dimension 7, [complete_shape] raises
    [AttributeError]; the same dimensions wrapped in a [TensorShape] give
    [[7, 5]]. *)
Theorem complete_shape_list_attribute_error :
  complete_shape ex_ref_tensor (PyList [None; Some 5%nat]) int64
  = Err AttributeError
  ∧ complete_shape ex_ref_tensor (PyTensorShape [None; Some 5%nat]) int64
    = Ok (ShapeTensor (mkDTensor int64 (mkTensor [2%nat] [7; 5]))).
Proof. split; reflexivity. Qed.

(** * Further properties *)

(** ** More on [sparse_put] *)









(** ** [empty_sparse_tensor] *)

Lemma empty_sparse_tensor_canonical ds : canonical (empty_sparse_tensor ds) = true.
Proof. reflexivity. Qed.



(** ** More on [to_dense], [to_sparse] and [dense_put] *)

Lemma list_eq_below {A} (l1 l2 : list A) n :
  length l1 = n → length l2 = n →
  (∀ k, (k < n)%nat → l1 !! k = l2 !! k) → l1 = l2.
Proof.
  intros H1 H2 H. apply list_eq. intros k.
  destruct (decide (k < n)%nat) as [Hk|Hk]; [by apply H|].
  rewrite !(proj2 (lookup_ge_None _ _)) by lia. done.
Qed.

Lemma in_bounds_length ds c : in_bounds ds c = true → length c = length ds.
Proof.
  revert c. induction ds as [|d ds IH]; intros [|x c]; try done.
  intros [_ H]%in_bounds_cons. simpl. f_equal. by apply IH.
Qed.

(** The dense tensor of a valid sparse tensor. *)
Lemma to_dense_ok (sp : SparseTensor Z) s :
  valid_sparse sp = true → dense_shape sp = Z.of_nat <$> s →
  ∃ d, to_dense (IsSparseTensor sp) = Ok (mkTensor s d)
     ∧ length d = size s
     ∧ ∀ k, (k < size s)%nat →
            d !! k = Some (default 0 (sp_get sp (coord_of s k))).
Proof.
  intros Hv Hd. pose proof Hv as [(L & _)%canonical_spec _]%valid_sparse_spec.
  cbn [to_dense].
  rewrite (sparse_tensor_to_dense_ok sp 0 s Hd L
             (valid_sparse_indices_valid sp Hv)).
  eexists. split; [reflexivity|]. split.
  - by rewrite length_scatter, repeat_length.
  - intros k Hk. by apply to_dense_lookup.
Qed.

(** The elements of [dense_put tensor sp_updates]. *)
Lemma dense_put_ok (tensor : Tensor Z) (sp_updates : SparseTensor Z) :
  well_shaped tensor = true →
  valid_sparse sp_updates = true →
  dense_shape sp_updates = shape_of tensor →
  ∃ out, dense_put tensor sp_updates = Ok (mkTensor (shape tensor) out)
       ∧ length out = size (shape tensor)
       ∧ ∀ k, (k < size (shape tensor))%nat →
              out !! k = match sp_get sp_updates (coord_of (shape tensor) k) with
                         | Some v => Some v
                         | None => data tensor !! k
                         end.
Proof.
  intros Hw%Nat.eqb_eq HU Hd.
  pose proof HU as [HC HB]%valid_sparse_spec.
  pose proof HC as (L & HR & HS)%canonical_spec.
  set (s := shape tensor) in *.
  set (marker := mkSparse (indices sp_updates)
                   (ones (length (values sp_updates))) (dense_shape sp_updates)).
  assert (valid_sparse marker = true) as HM.
  { apply valid_sparse_spec. split; [|done]. apply canonical_spec.
    simpl. unfold ones. by rewrite repeat_length. }
  unfold dense_put. fold marker.
  rewrite (sparse_tensor_to_dense_ok marker 0 s);
    [|done|by simpl; unfold ones; rewrite repeat_length
     |by apply valid_sparse_indices_valid].
  rewrite bind_Ok.
  rewrite (sparse_tensor_to_dense_ok sp_updates 0 s);
    [|done|done|by apply valid_sparse_indices_valid].
  rewrite bind_Ok. unfold select, tensor_not_equal. cbn [shape data].
  rewrite !bool_decide_eq_true_2 by done. cbn [andb negb].
  set (M := scatter s (entries marker) (repeat 0 (size s))).
  set (D := scatter s (entries sp_updates) (repeat 0 (size s))).
  eexists. split; [reflexivity|]. split.
  - rewrite length_zip_with, length_zip.
    unfold not_equal. rewrite length_map.
    unfold M, D. rewrite !length_scatter, !repeat_length. lia.
  - intros k Hk. rewrite lookup_zip_with, not_equal_lookup.
    unfold M. rewrite (to_dense_lookup marker 0 s k HM Hd Hk).
    cbn [fmap option_fmap option_map mbind option_bind].
    destruct (lookup_lt_is_Some_2 (data tensor) k ltac:(lia)) as [t Ht].
    assert (zip D (data tensor) !! k
            = Some (default 0 (sp_get sp_updates (coord_of s k)), t)) as ->.
    { apply lookup_zip_Some. split; [|done].
      unfold D. by apply to_dense_lookup. }
    cbn [mbind option_bind fst snd]. rewrite Ht.
    unfold sp_get at 1, marker, entries. cbn [indices values].
    unfold ones. rewrite zip_repeat, tag_assoc by done.
    destruct (decide (coord_of s k ∈ indices sp_updates)) as [Hin|Hin].
    + rewrite (bool_decide_eq_true_2 _ Hin). cbn.
      unfold sp_get. rewrite <-(entries_keys sp_updates L) in Hin.
      by apply assoc_in in Hin as [v ->].
    + rewrite (bool_decide_eq_false_2 _ Hin). cbn.
      apply (sp_get_None _ _ L) in Hin. by rewrite Hin.
Qed.











(** X9. [dense_put] succeeds only on updates whose indices are in order, not
    repeated and inside the shape of the tensor, and then keeps the shape. *)
Theorem dense_put_requires (tensor r : Tensor Z) (sp_updates : SparseTensor Z) :
  dense_put tensor sp_updates = Ok r →
  indices_valid sp_updates = true
  ∧ length (indices sp_updates) = length (values sp_updates)
  ∧ shape tensor = Z.to_nat <$> dense_shape sp_updates
  ∧ shape r = shape tensor.
Proof.
  unfold dense_put, sparse_tensor_to_dense. cbn [indices values dense_shape].
  unfold ones. rewrite repeat_length.
  destruct (forallb (Z.leb 0) (dense_shape sp_updates)); [|done].
  destruct (Nat.eqb_spec (length (indices sp_updates))
                         (length (values sp_updates))) as [L|]; [|done].
  assert (indices_valid
            (mkSparse (indices sp_updates) (repeat 1 (length (values sp_updates)))
                      (dense_shape sp_updates))
          = indices_valid sp_updates) as -> by done.
  destruct (indices_valid sp_updates); [|done].
  cbn [negb]. rewrite !bind_Ok. unfold select, tensor_not_equal. cbn [shape data].
  rewrite bool_decide_eq_true_2 by done. cbn [andb].
  case_bool_decide as Hs; [|done]. cbn [negb]. intros [= <-]. by rewrite Hs.
Qed.

Lemma dense_put_requires_witness :
  indices_valid ex_sp_updates = true
  ∧ length (indices ex_sp_updates) = length (values ex_sp_updates)
  ∧ shape ex_tensor = Z.to_nat <$> dense_shape ex_sp_updates
  ∧ shape (mkTensor [2; 3]%nat [1; 9; 0; -4; 0; 3]) = shape ex_tensor.
Proof.
  apply (dense_put_requires ex_tensor _ ex_sp_updates). reflexivity.
Defined.

(** X10. The dense form of the empty sparse tensor is the zero tensor (the note
    in the docstring of [empty_sparse_tensor]), and a dense update with it
    changes nothing. *)
Theorem empty_sparse_tensor_dense (tensor : Tensor Z) :
  well_shaped tensor = true →
  to_dense (IsSparseTensor (empty_sparse_tensor (shape_of tensor)))
  = Ok (mkTensor (shape tensor) (zeros (size (shape tensor))))
  ∧ dense_put tensor (empty_sparse_tensor (shape_of tensor)) = Ok tensor.
Proof.
  intros Hw. set (e := empty_sparse_tensor (shape_of tensor)).
  assert (valid_sparse e = true) as He by reflexivity.
  split.
  - cbn [to_dense].
    by rewrite (sparse_tensor_to_dense_ok e 0 (shape tensor)).
  - destruct (dense_put_ok tensor e Hw He eq_refl) as (out & Eo & Lo & Go).
    rewrite Eo. destruct tensor as [s d]. cbn [shape data] in *. do 2 f_equal.
    apply Nat.eqb_eq in Hw. cbn in Hw.
    by apply (list_eq_below _ _ (size s)).
Qed.

Lemma empty_sparse_tensor_dense_witness :
  to_dense (IsSparseTensor (empty_sparse_tensor (shape_of ex_tensor)))
  = Ok (mkTensor (shape ex_tensor) (zeros (size (shape ex_tensor))))
  ∧ dense_put ex_tensor (empty_sparse_tensor (shape_of ex_tensor)) = Ok ex_tensor.
Proof. apply (empty_sparse_tensor_dense ex_tensor). reflexivity. Defined.

(** ** More on [sparse_dropout] *)

Lemma keep_prob_in_range keep_prob :
  (0 < keep_prob)%Q → (keep_prob <= 1)%Q →
  negb (negb (Qle_bool keep_prob 0) && Qle_bool keep_prob 1) = false.
Proof.
  intros H0 H1.
  assert (Qle_bool keep_prob 0 = false) as ->.
  { destruct (Qle_bool keep_prob 0) eqn:E; [|done].
    apply Qle_bool_iff in E. exfalso. exact (Qlt_not_le _ _ H0 E). }
  by assert (Qle_bool keep_prob 1 = true) as -> by (by apply Qle_bool_iff).
Qed.

Lemma keep_prob_out_of_range keep_prob :
  ¬ ((0 < keep_prob)%Q ∧ (keep_prob <= 1)%Q) →
  negb (negb (Qle_bool keep_prob 0) && Qle_bool keep_prob 1) = true.
Proof.
  intros H. destruct (Qle_bool keep_prob 0) eqn:E0; [done|].
  destruct (Qle_bool keep_prob 1) eqn:E1; [|done]. exfalso. apply H. split.
  - apply Qnot_le_lt. intros Hle%Qle_bool_iff. congruence.
  - by apply Qle_bool_iff.
Qed.

(** What [sparse_dropout] returns for a [keep_prob] in range. *)
Lemma sparse_dropout_ok (sp : SparseTensor Q) keep_prob noise :
  (0 < keep_prob)%Q → (keep_prob <= 1)%Q →
  length (indices sp) = length (values sp) →
  ∃ dv, dropout (values sp) keep_prob noise = Ok dv
      ∧ length dv = length (values sp)
      ∧ sparse_dropout sp keep_prob noise =
        Ok (mkSparse (gather_true (indices sp) (q_not_equal dv 0))
                     (gather_true dv (q_not_equal dv 0)) (dense_shape sp)).
Proof.
  intros H0 H1 Hlen.
  destruct (dropout_ok (values sp) keep_prob noise H0 H1) as (dv & Hdv & Hl).
  exists dv. split; [done|]. split; [done|].
  unfold sparse_dropout. rewrite Hdv, bind_Ok.
  assert (length (q_not_equal dv 0) = length dv) as Hm by apply length_fmap.
  unfold boolean_mask.
  replace (length dv =? length (q_not_equal dv 0))%nat with true
    by (symmetry; apply Nat.eqb_eq; lia).
  rewrite bind_Ok.
  replace (length (indices sp) =? length (q_not_equal dv 0))%nat with true
    by (symmetry; apply Nat.eqb_eq; lia).
  by rewrite bind_Ok.
Qed.

(** X11. [sparse_dropout] raises [ValueError] exactly when [keep_prob] is outside
    (0, 1], whatever the input and the samples. *)
Theorem sparse_dropout_value_error
    (sp_tensor : SparseTensor Q) (keep_prob : Q) (noise : nat → Q) :
  sparse_dropout sp_tensor keep_prob noise = Err ValueError
  ↔ ¬ ((0 < keep_prob)%Q ∧ (keep_prob <= 1)%Q).
Proof.
  split.
  - intros H [H0 H1]. unfold sparse_dropout in H.
    destruct (dropout_ok (values sp_tensor) keep_prob noise H0 H1)
      as (dv & Hdv & _).
    rewrite Hdv, bind_Ok in H. unfold boolean_mask in H.
    repeat match type of H with
           | context [if ?b then _ else _] => destruct b; cbn in H
           end; discriminate.
  - intros H. unfold sparse_dropout, dropout.
    by rewrite (keep_prob_out_of_range keep_prob H).
Qed.

Lemma gather_true_elem {A} (l : list A) mask x :
  x ∈ gather_true l mask → x ∈ l.
Proof.
  revert mask. induction l as [|y l IH]; intros [|[] mask]; simpl;
    try (by intros ?%elem_of_nil).
  - intros [->|H]%elem_of_cons; apply elem_of_cons; eauto.
  - intros H. apply elem_of_cons; eauto.
Qed.

Lemma gather_true_sorted (l : list (list Z)) mask :
  StronglySorted lt_c l → StronglySorted lt_c (gather_true l mask).
Proof.
  revert mask. induction l as [|c l IH]; intros [|[] mask] Hs;
    simpl; try constructor.
  - apply IH. by apply StronglySorted_inv in Hs as [? _].
  - apply StronglySorted_inv in Hs as [_ Hf]. rewrite Forall_forall in *.
    intros x Hx%gather_true_elem. by apply Hf.
  - apply IH. by apply StronglySorted_inv in Hs as [? _].
Qed.

Lemma gather_true_length {A B} (l : list A) (k : list B) mask :
  length l = length k →
  length (gather_true l mask) = length (gather_true k mask).
Proof.
  revert k mask. induction l as [|x l IH]; intros [|y k] [|[] mask] Hl;
    simpl in *; try done; try lia; rewrite (IH k mask) by lia; done.
Qed.

(** X12. [sparse_dropout] keeps the canonical form: the result's indices are
    indices of the input, in the same order, with one value each. *)
Theorem sparse_dropout_canonical
    (sp_tensor : SparseTensor Q) (keep_prob : Q) (noise : nat → Q) :
  (0 < keep_prob)%Q → (keep_prob <= 1)%Q →
  canonical sp_tensor = true →
  ∃ r, sparse_dropout sp_tensor keep_prob noise = Ok r
     ∧ canonical r = true
     ∧ dense_shape r = dense_shape sp_tensor
     ∧ ∀ c, c ∈ indices r → c ∈ indices sp_tensor.
Proof.
  intros H0 H1 (L & R & S)%canonical_spec.
  destruct (sparse_dropout_ok sp_tensor keep_prob noise H0 H1 L)
    as (dv & _ & Ldv & ->).
  eexists. split; [reflexivity|]. split; [|split; [done|]].
  - apply canonical_spec. cbn [indices values dense_shape].
    split; [apply gather_true_length; lia|]. split.
    + rewrite Forall_forall in *. intros c Hc%gather_true_elem. by apply R.
    + by apply gather_true_sorted.
  - intros c Hc. cbn [indices] in Hc. by apply gather_true_elem in Hc.
Qed.

Lemma sparse_dropout_canonical_witness :
  ∃ r, sparse_dropout ex_sp_q (1 # 2) ex_noise = Ok r
     ∧ canonical r = true
     ∧ dense_shape r = dense_shape ex_sp_q
     ∧ ∀ c, c ∈ indices r → c ∈ indices ex_sp_q.
Proof.
  apply (sparse_dropout_canonical ex_sp_q (1 # 2) ex_noise);
    [reflexivity | unfold Qle; simpl; lia | reflexivity].
Defined.

(** X13. With [keep_prob = 1] nothing is random: the result is the input without
    its explicit zeros, whatever the samples, and the input itself when it
    stores no zero. *)
Theorem sparse_dropout_keep_all (sp_tensor : SparseTensor Q) :
  length (indices sp_tensor) = length (values sp_tensor) →
  ∃ r, (∀ noise, sparse_dropout sp_tensor 1 noise = Ok r)
     ∧ entries r = List.filter (fun e => negb (Qeq_bool e.2 0)) (entries sp_tensor)
     ∧ (Forall (fun v => ¬ (v == 0)%Q) (values sp_tensor) → r = sp_tensor).
Proof.
  intros L.
  set (m := q_not_equal (values sp_tensor) 0).
  assert (length m = length (values sp_tensor)) as Hm by apply length_fmap.
  exists (mkSparse (gather_true (indices sp_tensor) m)
                   (gather_true (values sp_tensor) m) (dense_shape sp_tensor)).
  split; [|split].
  - intros noise. unfold sparse_dropout.
    change (dropout (values sp_tensor) 1 noise) with (Ok (values sp_tensor)).
    rewrite bind_Ok. fold m. unfold boolean_mask.
    replace (length (values sp_tensor) =? length m)%nat with true
      by (symmetry; apply Nat.eqb_eq; lia).
    rewrite bind_Ok.
    replace (length (indices sp_tensor) =? length m)%nat with true
      by (symmetry; apply Nat.eqb_eq; lia).
    by rewrite bind_Ok.
  - unfold entries. cbn [indices values].
    rewrite gather_true_zip by lia. rewrite <-gather_true_filter. f_equal.
    unfold m, q_not_equal.
    rewrite <-(snd_zip (indices sp_tensor) (values sp_tensor)) at 1 by lia.
    by rewrite <-list_fmap_compose.
  - intros Hnz. assert (m = repeat true (length (values sp_tensor))) as ->.
    { unfold m, q_not_equal. clear -Hnz.
      induction Hnz as [|v l Hv _ IH]; [done|].
      rewrite fmap_cons. cbn [length repeat]. f_equal; [|exact IH].
      apply negb_true_iff. destruct (Qeq_bool v 0) eqn:E; [|done].
      by apply Qeq_bool_iff in E. }
    assert (∀ {A} (l : list A) n, length l = n → gather_true l (repeat true n) = l)
      as Hall.
    { clear. intros A l. induction l as [|x l IH]; intros [|n] Hl; simpl in *;
        try done. f_equal. apply IH. lia. }
    rewrite !Hall by done. by destruct sp_tensor.
Qed.

Lemma sparse_dropout_keep_all_witness :
  ∃ r, (∀ noise, sparse_dropout ex_sp_q 1 noise = Ok r)
     ∧ entries r = List.filter (fun e => negb (Qeq_bool e.2 0)) (entries ex_sp_q)
     ∧ (Forall (fun v => ¬ (v == 0)%Q) (values ex_sp_q) → r = ex_sp_q).
Proof. apply (sparse_dropout_keep_all ex_sp_q). reflexivity. Defined.

Lemma Qfloor_one x : (1 <= x)%Q → (x < 2)%Q → Qfloor x = 1.
Proof.
  intros H1 H2.
  assert (1 ≤ Qfloor x) as Hlo.
  { rewrite <-(Qfloor_Z 1). by apply Qfloor_resp_le. }
  assert (Qfloor x < 2) as Hhi.
  { rewrite Zlt_Qlt. eapply Qle_lt_trans; [apply Qfloor_le|done]. }
  lia.
Qed.

Lemma Qdiv_zero_iff v k : ¬ (k == 0)%Q → (v / k == 0)%Q ↔ (v == 0)%Q.
Proof.
  intros Hk. split; intros H.
  - rewrite <-(Qmult_div_r v k Hk), H. apply Qmult_0_r.
  - unfold Qdiv. rewrite H. apply Qmult_0_l.
Qed.

(** Element [i] of the output of [dropout]: the input scaled by
    [1 / keep_prob] when [keep_prob + noise i] reaches 1, zero otherwise. *)
Lemma dropout_lookup x keep_prob noise dv i v :
  (0 < keep_prob)%Q → (keep_prob <= 1)%Q →
  (0 <= noise i)%Q → (noise i < 1)%Q →
  dropout x keep_prob noise = Ok dv →
  x !! i = Some v →
  ∃ v', dv !! i = Some v'
      ∧ ((1 <= keep_prob + noise i)%Q → (v' == v / keep_prob)%Q)
      ∧ ((keep_prob + noise i < 1)%Q → (v' == 0)%Q).
Proof.
  intros H0 H1 Hn0 Hn1 Hdv Hv.
  destruct (Qle_lt_or_eq _ _ H1) as [Hlt|Heq].
  - rewrite dropout_below_one in Hdv by done.
    assert (dv = imap (fun i v =>
              (v / keep_prob * inject_Z (Qfloor (keep_prob + noise i)))%Q) x)
      as -> by congruence.
    eexists. split.
    { rewrite list_lookup_imap, Hv. reflexivity. }
    split; intros Hr.
    + rewrite Qfloor_one; [apply Qmult_1_r|done|].
      change 2%Q with (1 + 1)%Q. apply Qplus_lt_le_compat; [done|].
      by apply Qlt_le_weak.
    + rewrite Qfloor_unit; [apply Qmult_0_r| |done].
      apply Qle_trans with (0 + 0)%Q; [done|].
      apply Qplus_le_compat; [by apply Qlt_le_weak|done].
  - unfold dropout in Hdv. rewrite keep_prob_in_range in Hdv by done.
    assert (Qeq_bool keep_prob 1 = true) as E by (by apply Qeq_bool_iff).
    rewrite E in Hdv. assert (dv = x) as -> by congruence.
    exists v. split; [done|]. split; intros Hr.
    + rewrite Heq. unfold Qdiv. change (/ 1)%Q with 1%Q.
      symmetry. apply Qmult_1_r.
    + exfalso. apply (Qlt_not_le _ _ Hr).
      apply Qle_trans with (1 + 0)%Q; [done|].
      apply Qplus_le_compat; [|done]. rewrite Heq. apply Qle_refl.
Qed.

Lemma sparse_dropout_entries (sp : SparseTensor Q) keep_prob noise :
  (0 < keep_prob)%Q → (keep_prob <= 1)%Q →
  length (indices sp) = length (values sp) →
  ∃ dv r, dropout (values sp) keep_prob noise = Ok dv
        ∧ length dv = length (values sp)
        ∧ sparse_dropout sp keep_prob noise = Ok r
        ∧ ∀ c v, (c, v) ∈ entries r
                 ↔ ∃ i, indices sp !! i = Some c ∧ dv !! i = Some v
                        ∧ ¬ (v == 0)%Q.
Proof.
  intros H0 H1 L.
  destruct (sparse_dropout_ok sp keep_prob noise H0 H1 L)
    as (dv & Hdv & Ldv & ->).
  exists dv. eexists. split; [done|]. split; [done|]. split; [reflexivity|].
  intros c v. unfold entries. cbn [indices values].
  rewrite gather_true_zip by lia.
  assert (q_not_equal dv 0
          = (fun e : list Z * Q => negb (Qeq_bool e.2 0))
              <$> zip (indices sp) dv) as ->.
  { unfold q_not_equal.
    rewrite <-(snd_zip (indices sp) dv) at 1 by lia.
    by rewrite <-list_fmap_compose. }
  rewrite gather_true_filter, list_elem_of_In, filter_In, <-list_elem_of_In.
  rewrite list_elem_of_lookup. cbn [snd]. split.
  - intros [[i Hi] Hnz]. apply lookup_zip_Some in Hi as [Hc Hv].
    exists i. split; [done|]. split; [done|].
    apply negb_true_iff in Hnz. by apply Qeq_bool_neq.
  - intros (i & Hc & Hv & Hnz). split.
    + exists i. by apply lookup_zip_Some.
    + apply negb_true_iff. destruct (Qeq_bool v 0) eqn:E; [|done].
      by apply Qeq_bool_iff in E.
Qed.

(** X14. The entries that survive [sparse_dropout] are exactly the non-zero
    entries whose sample makes [keep_prob + noise i] reach 1, each with its
    value divided by [keep_prob]. *)
Theorem sparse_dropout_survivors
    (sp_tensor : SparseTensor Q) (keep_prob : Q) (noise : nat → Q) :
  (0 < keep_prob)%Q → (keep_prob <= 1)%Q →
  length (indices sp_tensor) = length (values sp_tensor) →
  (∀ i, (0 <= noise i)%Q ∧ (noise i < 1)%Q) →
  ∃ r, sparse_dropout sp_tensor keep_prob noise = Ok r
     ∧ (∀ c v', (c, v') ∈ entries r →
          ∃ i v, indices sp_tensor !! i = Some c
               ∧ values sp_tensor !! i = Some v
               ∧ ¬ (v == 0)%Q
               ∧ (1 <= keep_prob + noise i)%Q
               ∧ (v' == v / keep_prob)%Q)
     ∧ (∀ i c v, indices sp_tensor !! i = Some c →
          values sp_tensor !! i = Some v →
          ¬ (v == 0)%Q → (1 <= keep_prob + noise i)%Q →
          ∃ v', (c, v') ∈ entries r ∧ (v' == v / keep_prob)%Q).
Proof.
  intros H0 H1 L Hnoise.
  destruct (sparse_dropout_entries sp_tensor keep_prob noise H0 H1 L)
    as (dv & r & Hdv & Ldv & Hr & Hent).
  assert (¬ (keep_prob == 0)%Q) as Hk.
  { intros E. rewrite E in H0. by apply Qlt_irrefl in H0. }
  exists r. split; [done|]. split.
  - intros c v' (i & Hc & Hv' & Hnz)%Hent.
    destruct (values sp_tensor !! i) as [v|] eqn:Hv.
    2:{ apply lookup_ge_None in Hv. apply lookup_lt_Some in Hv'. lia. }
    destruct (Hnoise i) as [Hn0 Hn1].
    destruct (dropout_lookup _ _ _ _ i v H0 H1 Hn0 Hn1 Hdv Hv)
      as (w & Hw & Hkeep & Hdrop).
    assert (w = v') as -> by congruence.
    destruct (Qlt_le_dec (keep_prob + noise i) 1) as [Hlt|Hge].
    { by destruct Hnz; apply Hdrop. }
    exists i, v. repeat split; try done.
    + intros Hz. apply Hnz. rewrite (Hkeep Hge). by apply Qdiv_zero_iff.
    + by apply Hkeep.
  - intros i c v Hc Hv Hnz Hge.
    destruct (Hnoise i) as [Hn0 Hn1].
    destruct (dropout_lookup _ _ _ _ i v H0 H1 Hn0 Hn1 Hdv Hv)
      as (w & Hw & Hkeep & _).
    exists w. split; [|by apply Hkeep].
    apply Hent. exists i. split; [done|]. split; [done|].
    rewrite (Hkeep Hge). intros Hz. apply Hnz. by apply Qdiv_zero_iff in Hz.
Qed.

Lemma ex_noise_unit i : (0 <= ex_noise i)%Q ∧ (ex_noise i < 1)%Q.
Proof. unfold ex_noise. by destruct (Nat.even i). Defined.

Lemma sparse_dropout_survivors_witness :
  ∃ r, sparse_dropout ex_sp_q (1 # 2) ex_noise = Ok r
     ∧ (∀ c v', (c, v') ∈ entries r →
          ∃ i v, indices ex_sp_q !! i = Some c
               ∧ values ex_sp_q !! i = Some v
               ∧ ¬ (v == 0)%Q
               ∧ (1 <= (1 # 2) + ex_noise i)%Q
               ∧ (v' == v / (1 # 2))%Q)
     ∧ (∀ i c v, indices ex_sp_q !! i = Some c →
          values ex_sp_q !! i = Some v →
          ¬ (v == 0)%Q → (1 <= (1 # 2) + ex_noise i)%Q →
          ∃ v', (c, v') ∈ entries r ∧ (v' == v / (1 # 2))%Q).
Proof.
  apply (sparse_dropout_survivors ex_sp_q (1 # 2) ex_noise);
    [reflexivity | unfold Qle; simpl; lia | reflexivity | exact ex_noise_unit].
Defined.

(** ** More on [index_list_to_sparse] *)

Lemma row_pairs_inv r0 indices c :
  c ∈ row_pairs r0 indices →
  ∃ row indexes i, c = [r0 + Z.of_nat row; i]
                 ∧ indices !! row = Some indexes ∧ i ∈ indexes.
Proof.
  revert r0. induction indices as [|l indices IH]; intros r0 Hc.
  { by apply elem_of_nil in Hc. }
  cbn [row_pairs] in Hc. apply elem_of_app in Hc as [Hc|Hc].
  - apply list_elem_of_fmap in Hc as (i & -> & Hi).
    exists 0%nat, l, i. by rewrite Z.add_0_r.
  - apply IH in Hc as (row & indexes & i & -> & Hrow & Hi).
    exists (S row), indexes, i. split; [|done]. f_equal. lia.
Qed.

Lemma lt_c_pair r i r' i' : lt_c [r; i] [r'; i'] ↔ r < r' ∨ (r = r' ∧ i < i').
Proof.
  unfold lt_c. cbn [dim_cmp].
  destruct (Z.compare_spec r r') as [->| |]; destruct (Z.compare_spec i i');
    split; intros; try done; try lia.
Qed.

Lemma row_pairs_sorted r0 indices :
  Forall (StronglySorted Z.lt) indices →
  StronglySorted lt_c (row_pairs r0 indices).
Proof.
  intros Hs. revert r0. induction Hs as [|l indices Hl _ IH]; intros r0.
  { constructor. }
  cbn [row_pairs]. apply StronglySorted_app_2.
  - intros c1 c2 (i & -> & _)%list_elem_of_fmap
      (row & indexes & j & -> & _)%row_pairs_inv.
    apply lt_c_pair. lia.
  - apply (StronglySorted_fmap _ Z.lt); [|done].
    intros x y Hxy. apply lt_c_pair. lia.
  - apply IH.
Qed.

(** X15. The errors of [index_list_to_sparse].  [IndexError] is raised exactly
    when an index is listed and [dense_shape] has no entry 1; no error other
    than [ValueError] and [IndexError] is raised; and when no index is listed
    [dense_shape] is not read at all. *)
Theorem index_list_to_sparse_errors
    (indices : list (list Z)) (dense_shape : list Z) :
  (index_list_to_sparse indices dense_shape = Err IndexError
   ↔ dense_shape !! 1%nat = None ∧ concat indices ≠ [])
  ∧ (∀ e, index_list_to_sparse indices dense_shape = Err e →
          e = ValueError ∨ e = IndexError)
  ∧ (concat indices = [] →
     index_list_to_sparse indices dense_shape
     = Ok (mkSparseValue [] [] dense_shape)).
Proof.
  unfold index_list_to_sparse.
  destruct (dense_shape !! 1%nat) as [bound|] eqn:Hb.
  - rewrite (rows_loop_Some _ _ _ _ _ Hb).
    destruct (existsb _ (concat indices)) eqn:E.
    + split; [split; [done|by intros [? _]]|]. split.
      * intros e [= <-]. by left.
      * intros Hnil. rewrite Hnil in E. done.
    + rewrite bind_Ok. split; [split; [done|by intros [? _]]|].
      split; [done|]. intros Hnil.
      assert (row_pairs 0 indices = []) as ->; [|done].
      apply nil_length_inv. by rewrite length_row_pairs, Hnil.
  - rewrite (rows_loop_None _ _ _ _ Hb).
    destruct (concat indices) as [|i l] eqn:E.
    + rewrite bind_Ok. split; [split; [done|by intros [_ ?]]|].
      split; [done|]. by intros _.
    + split; [done|]. split; [|done]. intros e [= <-]. by right.
Qed.

Lemma sp_get_ones idx ds c :
  sp_get (mkSparse idx (ones (length idx)) ds) c
  = if bool_decide (c ∈ idx) then Some 1 else None.
Proof.
  unfold sp_get, entries, ones. cbn [indices values].
  rewrite zip_repeat by done. apply tag_assoc.
Qed.

Lemma valid_sparse_mk {A} idx (vs : list A) ds :
  length idx = length vs →
  Forall (fun c => in_bounds ds c = true) idx →
  StronglySorted lt_c idx →
  valid_sparse (mkSparse idx vs ds) = true.
Proof.
  intros Hl Hb Hs. apply valid_sparse_spec. cbn [indices values dense_shape].
  split; [|done]. apply canonical_spec. cbn [indices values dense_shape].
  split; [done|]. split; [|done].
  eapply Forall_impl; [exact Hb|]. intros c Hc. by apply in_bounds_length.
Qed.

(** X16. When every row lists increasing indices in [[0, bound)] and there are at
    most [d0] rows, the arrays returned for [[d0; bound]] are a sparse tensor
    in canonical form with all indices inside the shape: the value 1 is
    stored at [[row; i]] exactly when row [row] lists [i]. *)
Theorem index_list_to_sparse_canonical
    (indices : list (list Z)) (d0 bound : Z) :
  Forall (StronglySorted Z.lt) indices →
  (∀ i, i ∈ concat indices → 0 ≤ i < bound) →
  Z.of_nat (length indices) ≤ d0 →
  ∃ sp, index_list_to_sparse indices [d0; bound] = Ok sp
      ∧ valid_sparse (mkSparse (v_indices sp) (v_values sp) (v_dense_shape sp))
        = true
      ∧ (∀ row indexes i, indices !! row = Some indexes → i ∈ indexes →
           sp_get (mkSparse (v_indices sp) (v_values sp) (v_dense_shape sp))
                  [Z.of_nat row; i] = Some 1)
      ∧ (∀ c, is_Some (sp_get (mkSparse (v_indices sp) (v_values sp)
                                        (v_dense_shape sp)) c) →
           ∃ row indexes i, c = [Z.of_nat row; i]
                          ∧ indices !! row = Some indexes ∧ i ∈ indexes).
Proof.
  intros Hs Hb Hrows.
  rewrite (index_list_to_sparse_ok indices [d0; bound] bound eq_refl)
    by (intros i Hi; apply Hb in Hi; lia).
  eexists. split; [reflexivity|]. cbn [v_indices v_values v_dense_shape].
  pose proof (sp_get_ones (row_pairs 0 indices) [d0; bound]) as Hget.
  split; [|split].
  - apply valid_sparse_mk;
      [by unfold ones; rewrite repeat_length| |by apply row_pairs_sorted].
    apply Forall_forall.
    intros c (row & indexes & i & -> & Hrow & Hi)%row_pairs_inv.
    assert (0 ≤ i < bound) as Hi'.
    { apply Hb. apply list_elem_of_In, in_concat. exists indexes.
      split; apply list_elem_of_In; [|done].
      by eapply list_elem_of_lookup_2. }
    apply lookup_lt_Some in Hrow.
    apply in_bounds_cons. split; [lia|]. apply in_bounds_cons. split; [lia|done].
  - intros row indexes i Hrow Hi. rewrite Hget, bool_decide_eq_true_2; [done|].
    by apply (row_pairs_elem 0 indices row indexes i).
  - intros c [v Hv]. rewrite Hget in Hv.
    destruct (bool_decide_reflect (c ∈ row_pairs 0 indices)) as [Hc|]; [|done].
    apply row_pairs_inv in Hc as (row & indexes & i & -> & Hrow & Hi).
    by exists row, indexes, i.
Qed.

Lemma index_list_to_sparse_canonical_witness :
  ∃ sp, index_list_to_sparse ex_index_rows [3; 10] = Ok sp
      ∧ valid_sparse (mkSparse (v_indices sp) (v_values sp) (v_dense_shape sp))
        = true
      ∧ (∀ row indexes i, ex_index_rows !! row = Some indexes → i ∈ indexes →
           sp_get (mkSparse (v_indices sp) (v_values sp) (v_dense_shape sp))
                  [Z.of_nat row; i] = Some 1)
      ∧ (∀ c, is_Some (sp_get (mkSparse (v_indices sp) (v_values sp)
                                        (v_dense_shape sp)) c) →
           ∃ row indexes i, c = [Z.of_nat row; i]
                          ∧ ex_index_rows !! row = Some indexes ∧ i ∈ indexes).
Proof.
  apply (index_list_to_sparse_canonical ex_index_rows 3 10).
  - unfold ex_index_rows. repeat constructor; lia.
  - intros i Hi. unfold ex_index_rows in Hi. simpl in Hi.
    repeat (apply elem_of_cons in Hi as [->|Hi]; [lia|]).
    by apply elem_of_nil in Hi.
  - simpl. lia.
Defined.

(** ** More on [batch_to_matrix_indices] *)

(** X17. For an output type that passes the type check, [ValueError] is raised
    exactly when the batch is not of rank 2. *)
Theorem batch_to_matrix_indices_rank_error (tensor : DTensor) (dtype : DType) :
  dtype = int32 ∨ dtype = int64 →
  batch_to_matrix_indices tensor dtype = Err ValueError
  ↔ length (shape (tensor_of tensor)) ≠ 2%nat.
Proof.
  intros Hdt. unfold batch_to_matrix_indices.
  rewrite to_tensor_cast_dtype, to_tensor_cast_tensor.
  replace (bool_decide (dtype ≠ int32) && bool_decide (dtype ≠ int64)) with false
    by (by destruct Hdt as [-> | ->]).
  unfold with_rank.
  destruct (Nat.eqb_spec (length (shape (tensor_of tensor))) 2) as [Hr|Hr].
  - split; [|done]. intros H. exfalso. rewrite bind_Ok in H.
    destruct (shape (tensor_of tensor)) as [|n [|m [|]]] eqn:Hs; try done.
    cbn [dim lookup list_lookup] in H. rewrite !bind_Ok in H.
    unfold expand_dims, tile, stack_last, reshape in H.
    repeat match type of H with
           | context [if ?b then _ else _] => destruct b; cbn in H
           end; discriminate.
  - done.
Qed.

Lemma batch_to_matrix_indices_rank_error_witness :
  batch_to_matrix_indices ex_vector int32 = Err ValueError
  ↔ length (shape (tensor_of ex_vector)) ≠ 2%nat.
Proof. apply (batch_to_matrix_indices_rank_error ex_vector int32). by left. Defined.

Lemma chunks_app {A} w a b (x y : list A) :
  length x = (w * a)%nat →
  chunks w (a + b) (x ++ y) = chunks w a x ++ chunks w b y.
Proof.
  revert x. induction a as [|a IH]; intros x Hx.
  { rewrite Nat.mul_0_r in Hx. by apply nil_length_inv in Hx as ->. }
  cbn [Nat.add chunks app]. rewrite take_app_le, drop_app_le by lia.
  f_equal. apply IH. rewrite length_drop. lia.
Qed.

Lemma concat_chunks {A} w n (l : list A) :
  length l = (n * w)%nat → concat (chunks w n l) = l.
Proof.
  revert l. induction n as [|n IH]; intros l Hl.
  { by apply nil_length_inv in Hl as ->. }
  cbn [chunks concat]. rewrite IH by (rewrite length_drop; lia).
  apply take_drop.
Qed.

Lemma chunks_row x (t : list Z) :
  chunks 2 (length t)
    (concat (zip_with (fun a b => [a; b]) (repeat x (length t)) t))
  = (fun i => [x; i]) <$> t.
Proof.
  induction t as [|i t IH]; [done|].
  rewrite fmap_cons.
  cbn [length repeat zip_with concat chunks app take drop].
  by rewrite take_0, drop_0, IH.
Qed.

Lemma length_row x (t : list Z) :
  length (concat (zip_with (fun a b => [a; b]) (repeat x (length t)) t))
  = (2 * length t)%nat.
Proof.
  induction t as [|i t IH]; [done|].
  cbn [length repeat zip_with concat app]. rewrite IH. lia.
Qed.

Lemma chunks_rows m n k (l : list Z) :
  length l = (n * m)%nat →
  chunks 2 (n * m)
    (concat (zip_with (fun a b => [a; b])
               (concat ((fun x => repeat x m) <$> (Z.of_nat <$> seq k n))) l))
  = row_pairs (Z.of_nat k) (chunks m n l).
Proof.
  revert k l. induction n as [|n IH]; intros k l Hl; [done|].
  cbn [seq]. rewrite !fmap_cons. cbn [concat chunks row_pairs].
  rewrite <-(take_drop m l) at 1.
  assert (length (take m l) = m) as Ht by (rewrite length_take; lia).
  rewrite zip_with_app by (by rewrite repeat_length).
  rewrite concat_app.
  change (S n * m)%nat with (m + n * m)%nat.
  rewrite (chunks_app 2 m (n * m)).
  - f_equal.
    + revert Ht. generalize (take m l). intros t <-. apply chunks_row.
    + rewrite IH by (rewrite length_drop; lia). f_equal. lia.
  - revert Ht. generalize (take m l). intros t <-. apply length_row.
Qed.



(** ** [fill_sp_ones] and [default_sp_values] *)

(** X19. On a sparse tensor with one value per index the two functions agree,
    they keep the canonical form, applying either again changes nothing, and
    the result stores 1 exactly at the indices of the input. *)
Theorem fill_sp_ones_default_sp_values {A} (sp_indices : SparseTensor A) :
  length (indices sp_indices) = length (values sp_indices) →
  fill_sp_ones sp_indices = default_sp_values sp_indices
  ∧ fill_sp_ones (fill_sp_ones sp_indices) = fill_sp_ones sp_indices
  ∧ canonical (fill_sp_ones sp_indices) = canonical sp_indices
  ∧ ∀ c, sp_get (fill_sp_ones sp_indices) c
         = if bool_decide (c ∈ indices sp_indices) then Some 1 else None.
Proof.
  intros Hl. unfold fill_sp_ones, default_sp_values. cbn [indices values dense_shape].
  split; [|split; [done|split]].
  - f_equal. rewrite Hl. unfold ones. generalize (values sp_indices).
    intros l. induction l as [|x l IH]; [done|].
    rewrite fmap_cons. cbn [length repeat]. by f_equal.
  - unfold canonical. cbn [indices values dense_shape].
    unfold ones. by rewrite repeat_length, Hl, !Nat.eqb_refl.
  - intros c. apply sp_get_ones.
Qed.

Lemma fill_sp_ones_default_sp_values_witness :
  fill_sp_ones ex_sp_tensor = default_sp_values ex_sp_tensor
  ∧ fill_sp_ones (fill_sp_ones ex_sp_tensor) = fill_sp_ones ex_sp_tensor
  ∧ canonical (fill_sp_ones ex_sp_tensor) = canonical ex_sp_tensor
  ∧ ∀ c, sp_get (fill_sp_ones ex_sp_tensor) c
         = if bool_decide (c ∈ indices ex_sp_tensor) then Some 1 else None.
Proof. apply (fill_sp_ones_default_sp_values ex_sp_tensor). reflexivity. Defined.

(** ** [sp_indices_from_sp_values] *)

Lemma sp_indices_from_sp_values_ok {A} (sp_values : SparseTensor A) :
  length (dense_shape sp_values) = 2%nat →
  sp_indices_from_sp_values sp_values =
  Ok (mkSparse (indices sp_values)
               ((fun row => default 0 (row !! 1%nat)) <$> indices sp_values)
               (dense_shape sp_values)).
Proof.
  intros Hr. unfold sp_indices_from_sp_values, unstack_last, indices_shape.
  rewrite Hr. cbn [last]. by rewrite bool_decide_eq_true_2.
Qed.

(** X20. [sp_indices_from_sp_values] raises [ValueError] exactly when the sparse
    tensor is not of rank 2. *)
Theorem sp_indices_from_sp_values_rank {A} (sp_values : SparseTensor A) :
  sp_indices_from_sp_values sp_values = Err ValueError
  ↔ length (dense_shape sp_values) ≠ 2%nat.
Proof.
  split.
  - intros H Hr. by rewrite sp_indices_from_sp_values_ok in H.
  - intros Hr. unfold sp_indices_from_sp_values, unstack_last, indices_shape.
    cbn [last]. rewrite bool_decide_eq_false_2; [done|]. congruence.
Qed.

(** X21. On a canonical sparse tensor of rank 2 the result has the indices and
    the shape of the input and is canonical; it stores at every index
    [[row; i]] the column [i]; and it is a fixed point of the function. *)
Theorem sp_indices_from_sp_values_columns {A} (sp_values : SparseTensor A) :
  canonical sp_values = true →
  length (dense_shape sp_values) = 2%nat →
  ∃ r, sp_indices_from_sp_values sp_values = Ok r
     ∧ indices r = indices sp_values
     ∧ dense_shape r = dense_shape sp_values
     ∧ canonical r = true
     ∧ (∀ row i, [row; i] ∈ indices sp_values → sp_get r [row; i] = Some i)
     ∧ sp_indices_from_sp_values r = Ok r.
Proof.
  intros Hc Hr. rewrite (sp_indices_from_sp_values_ok _ Hr).
  apply canonical_spec in Hc as (Hl & Hlen & Hs).
  eexists. split; [reflexivity|]. split; [done|]. split; [done|].
  assert (canonical (mkSparse (indices sp_values)
            ((fun row => default 0 (row !! 1%nat)) <$> indices sp_values)
            (dense_shape sp_values)) = true) as Hcan.
  { apply canonical_spec. cbn [indices values dense_shape].
    by rewrite length_fmap. }
  split; [done|]. split.
  - intros row i Hin. apply list_elem_of_lookup in Hin as [k Hk].
    apply (canonical_get _ k); [done|done|].
    cbn [values]. by rewrite list_lookup_fmap, Hk.
  - by rewrite sp_indices_from_sp_values_ok.
Qed.

Lemma sp_indices_from_sp_values_columns_witness :
  ∃ r, sp_indices_from_sp_values ex_sp_tensor = Ok r
     ∧ indices r = indices ex_sp_tensor
     ∧ dense_shape r = dense_shape ex_sp_tensor
     ∧ canonical r = true
     ∧ (∀ row i, [row; i] ∈ indices ex_sp_tensor → sp_get r [row; i] = Some i)
     ∧ sp_indices_from_sp_values r = Ok r.
Proof.
  apply (sp_indices_from_sp_values_columns ex_sp_tensor); reflexivity.
Defined.

(** ** [pairs] *)

Lemma length_concat_repeat {A} (l : list A) m :
  length (concat (repeat l m)) = (m * length l)%nat.
Proof.
  induction m as [|m IH]; [done|].
  cbn [repeat concat]. rewrite length_app, IH. lia.
Qed.

Lemma length_column {A} (x : list A) n b :
  length x = n →
  length (concat (zip_with (fun a b => [a; b]) x (repeat b n))) = (2 * n)%nat.
Proof.
  intros <-. induction x as [|a x IH]; [done|].
  cbn [length repeat zip_with concat app]. rewrite IH. lia.
Qed.

Lemma chunks_column {A} (x : list A) n b :
  length x = n →
  chunks 2 n (concat (zip_with (fun a b => [a; b]) x (repeat b n)))
  = (fun a => [a; b]) <$> x.
Proof.
  intros <-. induction x as [|a x IH]; [done|]. rewrite fmap_cons.
  cbn [length repeat zip_with concat chunks app take drop].
  by rewrite take_0, drop_0, IH.
Qed.

Lemma chunks_grid {A} (x y : list A) :
  chunks 2 (length y * length x)
    (concat (zip_with (fun a b => [a; b])
               (concat (repeat x (length y)))
               (concat ((fun b => repeat b (length x)) <$> y))))
  = concat ((fun b => (fun a => [a; b]) <$> x) <$> y).
Proof.
  induction y as [|b y IH]; [done|].
  rewrite !fmap_cons. cbn [length repeat concat].
  rewrite zip_with_app by (by rewrite repeat_length).
  rewrite concat_app.
  change (S (length y) * length x)%nat with (length x + length y * length x)%nat.
  rewrite (chunks_app 2 (length x) (length y * length x))
    by (by apply length_column).
  by rewrite IH, chunks_column.
Qed.

(** X22. [pairs] never fails.  For [n] elements in [tensor1] and [m] in
    [tensor2] it returns an [(m * n) x 2] matrix whose rows are the pairs
    [[a; b]], one for every element [a] of [tensor1] and every element [b] of
    [tensor2]: all pairs with the first element of [tensor2], then all pairs
    with the second, and so on. *)
Theorem pairs_rows {A} (tensor1 tensor2 : Tensor A) :
  ∃ out, pairs tensor1 tensor2 = Ok out
       ∧ shape out = [(length (data tensor2) * length (data tensor1))%nat; 2%nat]
       ∧ well_shaped out = true
       ∧ chunks 2 (length (data tensor2) * length (data tensor1)) (data out)
         = concat ((fun b => (fun a => [a; b]) <$> data tensor1) <$> data tensor2).
Proof.
  set (x := data tensor1). set (y := data tensor2).
  set (l := concat (zip_with (fun a b => [a; b])
                      (concat (repeat x (length y)))
                      (concat ((fun b => repeat b (length x)) <$> y)))).
  assert (length l = (2 * (length y * length x))%nat) as Hl.
  { unfold l. clear. induction y as [|b y IH]; [done|].
    rewrite !fmap_cons. cbn [length repeat concat].
    rewrite zip_with_app by (by rewrite repeat_length).
    rewrite concat_app, length_app, IH, length_column by done. lia. }
  assert (pairs tensor1 tensor2
          = Ok (mkTensor [(length y * length x)%nat; 2%nat] l)) as ->.
  { unfold pairs, meshgrid, stack_last. cbn [shape data].
    rewrite bool_decide_eq_true_2 by done. cbn [negb]. rewrite bind_Ok.
    fold x y l. by apply reshape_pairs. }
  eexists. split; [reflexivity|]. split; [done|]. split.
  - unfold well_shaped. cbn [data shape size foldr]. apply Nat.eqb_eq. lia.
  - cbn [data]. apply chunks_grid.
Qed.

(** The example of the docstring of [pairs]. *)
Example ex_pairs_docstring :
  pairs (mkTensor [2; 1]%nat [0; 1]) (mkTensor [3%nat] [2; 3; 4])
  = Ok (mkTensor [6; 2]%nat [0; 2; 1; 2; 0; 3; 1; 3; 0; 4; 1; 4]).
Proof. reflexivity. Qed.

(** ** [flat_to_sparse_indices] and [flat_indices_to_sparse_tensor] *)

Lemma cast_tensor (x : DTensor) (dtype : DType) :
  tensor_of (if bool_decide (dtype_of x ≠ dtype) then cast x dtype else x)
  = tensor_of x.
Proof. by destruct (bool_decide _). Qed.

Lemma reshape_flat {A} (t : Tensor A) :
  reshape t [-1] = Ok (mkTensor [length (data t)] (data t)).
Proof.
  unfold reshape. cbn -[Nat.modulo Nat.div].
  rewrite Nat.mod_1_r, Nat.div_1_r. done.
Qed.

Lemma SparseTensor_init_ok {A} (idx : Tensor Z) (vals : Tensor A) k w ds s :
  shape idx = [k; w] → shape vals = [k] →
  shape_vector s = Ok (mkTensor [w] ds) →
  SparseTensor_init idx vals s = Ok (mkSparse (chunks w k (data idx)) (data vals) ds).
Proof.
  intros Hi Hv Hs. unfold SparseTensor_init. rewrite Hs, bind_Ok, Hi, Hv.
  cbn [with_rank length Nat.eqb shape]. rewrite !bind_Ok.
  cbn [dim lookup list_lookup]. rewrite ?bind_Ok.
  rewrite Nat.eqb_refl. cbn [negb]. rewrite ?bind_Ok.
  by rewrite Nat.eqb_refl.
Qed.

(** The matrix of pairs of an [n x m] batch, as the list of its rows. *)
Lemma batch_rows (indices : DTensor) n m :
  shape (tensor_of indices) = [n; m] →
  well_shaped (tensor_of indices) = true →
  ∃ l, batch_to_matrix_indices
         (if bool_decide (dtype_of indices ≠ int64) then cast indices int64
          else indices) int64
       = Ok (mkDTensor int64 (mkTensor [(n * m)%nat; 2%nat] l))
     ∧ length (data (tensor_of indices)) = (n * m)%nat
     ∧ chunks 2 (n * m) l = row_pairs 0 (chunks m n (data (tensor_of indices))).
Proof.
  intros Hs Hw.
  assert (length (data (tensor_of indices)) = (n * m)%nat) as Hl.
  { unfold well_shaped in Hw. rewrite Hs in Hw. apply Nat.eqb_eq in Hw.
    change (size [n; m]) with (n * (m * 1))%nat in Hw. lia. }
  eexists. split; [|split; [done|]].
  - rewrite (batch_to_matrix_indices_ok _ int64 n m);
      rewrite ?cast_tensor; [reflexivity|by right|done|done].
  - rewrite ?cast_tensor. by apply (chunks_rows m n 0).
Qed.

(** What [flat_to_sparse_indices] returns for an [n x m] batch and a list of
    two known dimensions. *)
Lemma flat_to_sparse_indices_ok (indices : DTensor) n m d0 d1 :
  shape (tensor_of indices) = [n; m] →
  well_shaped (tensor_of indices) = true →
  flat_to_sparse_indices indices [Some d0; Some d1] =
  Ok (mkSparse (row_pairs 0 (chunks m n (data (tensor_of indices))))
               (data (tensor_of indices)) [Z.of_nat d0; Z.of_nat d1]).
Proof.
  intros Hs Hw. destruct (batch_rows indices n m Hs Hw) as (l & Hb & Hl & Hrows).
  unfold flat_to_sparse_indices. rewrite Hb, bind_Ok.
  cbn [list_item lookup list_lookup]. rewrite bind_Ok.
  cbn [convert_to_tensor is_fully_defined forallb andb]. rewrite !bind_Ok.
  rewrite cast_tensor, reshape_flat, bind_Ok, Hl.
  erewrite SparseTensor_init_ok; [|reflexivity|reflexivity|reflexivity].
  cbn [tensor_of data]. by rewrite Hrows.
Qed.

(** What [flat_indices_to_sparse_tensor] returns for an [n x m] batch and
    two dimensions of which the second is known: an unknown first dimension
    is replaced by the number of rows of the batch. *)
Lemma flat_indices_to_sparse_tensor_ok (indices : DTensor) dense_shape
    default_value dtype n m b d :
  shape (tensor_of indices) = [n; m] →
  well_shaped (tensor_of indices) = true →
  TensorShape dense_shape = [b; Some d] →
  flat_indices_to_sparse_tensor indices dense_shape default_value dtype =
  Ok (mkSparse (row_pairs 0 (chunks m n (data (tensor_of indices))))
               (repeat default_value (n * m))
               [Z.of_nat (default n b); Z.of_nat d]).
Proof.
  intros Hs Hw Hd. destruct (batch_rows indices n m Hs Hw) as (l & Hb & Hl & Hrows).
  unfold flat_indices_to_sparse_tensor. rewrite Hb, bind_Ok, Hd.
  rewrite cast_tensor.
  assert (∃ s, complete_shape (tensor_of indices) (PyTensorShape [b; Some d]) int64
               = Ok s
             ∧ shape_vector s
               = Ok (mkTensor [2%nat] [Z.of_nat (default n b); Z.of_nat d]))
    as (s & -> & Hv).
  { destruct b as [d0|].
    - eexists. split; [reflexivity|]. reflexivity.
    - eexists. split.
      + by apply (complete_shape_tensor_shape _ _ d n [m]).
      + reflexivity. }
  rewrite bind_Ok. cbn [tensor_of shape dim lookup list_lookup].
  rewrite bind_Ok.
  assert (∀ vals : DTensor, tensor_of vals = fill [(n * m)%nat] default_value →
            SparseTensor_init (mkTensor [(n * m)%nat; 2%nat] l) (tensor_of vals) s
            = Ok (mkSparse (row_pairs 0 (chunks m n (data (tensor_of indices))))
                           (repeat default_value (n * m))
                           [Z.of_nat (default n b); Z.of_nat d])) as Hinit.
  { intros vals ->.
    erewrite SparseTensor_init_ok; [|reflexivity|reflexivity|exact Hv].
    cbn [data fill size foldr]. by rewrite Hrows, Nat.mul_1_r. }
  apply Hinit.
  exact (cast_tensor (mkDTensor int32 (fill [(n * m)%nat] default_value)) dtype).
Qed.

Lemma row_pairs_columns k rows :
  (fun row => default 0 (row !! 1%nat)) <$> row_pairs k rows = concat rows.
Proof.
  revert k. induction rows as [|l rows IH]; intros k; [done|].
  cbn [row_pairs concat]. rewrite fmap_app, IH. f_equal.
  rewrite <-list_fmap_compose. clear. induction l as [|i l IH]; [done|].
  rewrite fmap_cons. by f_equal.
Qed.

(** X23. For an [n x m] batch and a shape [[d0; d1]], [flat_to_sparse_indices]
    returns the pairs [[row; i]] as indices, in the order of the batch, with
    the elements of the batch as values; [sp_indices_from_sp_values] gives
    this sparse tensor back from itself. *)
Theorem flat_to_sparse_indices_rows (batch : DTensor) (n m d0 d1 : nat) :
  shape (tensor_of batch) = [n; m] →
  well_shaped (tensor_of batch) = true →
  ∃ r, flat_to_sparse_indices batch [Some d0; Some d1] = Ok r
     ∧ indices r = row_pairs 0 (chunks m n (data (tensor_of batch)))
     ∧ values r = data (tensor_of batch)
     ∧ dense_shape r = [Z.of_nat d0; Z.of_nat d1]
     ∧ sp_indices_from_sp_values r = Ok r.
Proof.
  intros Hs Hw. rewrite (flat_to_sparse_indices_ok batch n m d0 d1 Hs Hw).
  eexists. split; [reflexivity|]. do 3 (split; [done|]).
  rewrite sp_indices_from_sp_values_ok by done.
  cbn [indices dense_shape]. do 2 f_equal.
  rewrite row_pairs_columns. apply concat_chunks.
  unfold well_shaped in Hw. rewrite Hs in Hw. apply Nat.eqb_eq in Hw.
  change (size [n; m]) with (n * (m * 1))%nat in Hw. lia.
Qed.

Lemma flat_to_sparse_indices_rows_witness :
  ∃ r, flat_to_sparse_indices ex_flat_batch [Some 2%nat; Some 3%nat] = Ok r
     ∧ indices r
       = row_pairs 0 (chunks 2 2 (data (tensor_of ex_flat_batch)))
     ∧ values r = data (tensor_of ex_flat_batch)
     ∧ dense_shape r = [Z.of_nat 2; Z.of_nat 3]
     ∧ sp_indices_from_sp_values r = Ok r.
Proof.
  apply (flat_to_sparse_indices_rows ex_flat_batch 2 2 2 3); reflexivity.
Defined.

(** The example of the docstring of [flat_to_sparse_indices]. *)
Example ex_flat_to_sparse_indices :
  flat_to_sparse_indices ex_flat_batch [Some 2%nat; Some 3%nat]
  = Ok (mkSparse [[0; 0]; [0; 1]; [1; 1]; [1; 2]] [0; 1; 1; 2] [2; 3]).
Proof. reflexivity. Qed.

(** X24. With a list whose first dimension is [None], [flat_to_sparse_indices]
    hands the list to [complete_shape], which calls [as_list] on it: for a
    batch of rank 2 the call raises [AttributeError], whatever the other
    entries of the list. *)
Theorem flat_to_sparse_indices_unknown_batch
    (indices : DTensor) (n m : nat) (rest : list (option nat)) :
  shape (tensor_of indices) = [n; m] →
  well_shaped (tensor_of indices) = true →
  flat_to_sparse_indices indices (None :: rest) = Err AttributeError.
Proof.
  intros Hs Hw. destruct (batch_rows indices n m Hs Hw) as (l & Hb & _).
  unfold flat_to_sparse_indices. rewrite Hb, bind_Ok.
  cbn [list_item lookup list_lookup]. rewrite bind_Ok.
  by rewrite complete_shape_list.
Qed.

Lemma flat_to_sparse_indices_unknown_batch_witness :
  flat_to_sparse_indices ex_flat_batch [None; Some 3%nat] = Err AttributeError.
Proof.
  apply (flat_to_sparse_indices_unknown_batch ex_flat_batch 2 2 [Some 3%nat]);
    reflexivity.
Defined.



(** X26. With known dimensions and the default value 1,
    [flat_indices_to_sparse_tensor] is [flat_to_sparse_indices] followed by
    [fill_sp_ones], for every requested element type. *)
Theorem flat_indices_to_sparse_tensor_fill
    (batch : DTensor) (dtype : DType) (n m d0 d1 : nat) :
  shape (tensor_of batch) = [n; m] →
  well_shaped (tensor_of batch) = true →
  ∃ r, flat_to_sparse_indices batch [Some d0; Some d1] = Ok r
     ∧ flat_indices_to_sparse_tensor batch (PyList [Some d0; Some d1]) 1 dtype
       = Ok (fill_sp_ones r).
Proof.
  intros Hs Hw.
  rewrite (flat_indices_to_sparse_tensor_ok
             batch (PyList [Some d0; Some d1]) 1 dtype n m (Some d0) d1 Hs Hw
             eq_refl).
  rewrite (flat_to_sparse_indices_ok batch n m d0 d1 Hs Hw).
  eexists. split; [reflexivity|]. unfold fill_sp_ones, ones.
  cbn [indices dense_shape default].
  assert (length (data (tensor_of batch)) = (n * m)%nat) as Hl.
  { unfold well_shaped in Hw. rewrite Hs in Hw. apply Nat.eqb_eq in Hw.
    change (size [n; m]) with (n * (m * 1))%nat in Hw. lia. }
  by rewrite length_row_pairs, concat_chunks, Hl.
Qed.

Lemma flat_indices_to_sparse_tensor_fill_witness :
  ∃ r, flat_to_sparse_indices ex_flat_batch [Some 2%nat; Some 3%nat] = Ok r
     ∧ flat_indices_to_sparse_tensor ex_flat_batch
         (PyList [Some 2%nat; Some 3%nat]) 1 float32
       = Ok (fill_sp_ones r).
Proof.
  apply (flat_indices_to_sparse_tensor_fill ex_flat_batch float32 2 2 2 3);
    reflexivity.
Defined.

(** X27. For a batch of rank 2 and a non-empty list of known dimensions,
    [flat_to_sparse_indices] raises [ValueError] exactly when the list does
    not have two entries: the constructor compares its length with the
    width of the pairs. *)
Theorem flat_to_sparse_indices_shape_rank
    (indices : DTensor) (dense_shape : list (option nat)) (n m : nat) :
  shape (tensor_of indices) = [n; m] →
  well_shaped (tensor_of indices) = true →
  is_fully_defined dense_shape = true →
  dense_shape ≠ [] →
  flat_to_sparse_indices indices dense_shape = Err ValueError
  ↔ length dense_shape ≠ 2%nat.
Proof.
  intros Hs Hw Hf Hne.
  destruct (batch_rows indices n m Hs Hw) as (l & Hb & Hl & _).
  destruct dense_shape as [|[d0|] rest]; [done| |done].
  unfold flat_to_sparse_indices. rewrite Hb, bind_Ok.
  cbn [list_item lookup list_lookup]. rewrite bind_Ok.
  unfold convert_to_tensor. rewrite Hf, !bind_Ok.
  rewrite cast_tensor, reshape_flat, bind_Ok, Hl.
  unfold SparseTensor_init. cbn [shape_vector tensor_of]. rewrite bind_Ok.
  cbn [with_rank length Nat.eqb shape]. rewrite !bind_Ok.
  cbn [dim lookup list_lookup]. rewrite ?bind_Ok.
  rewrite Nat.eqb_refl. cbn [negb]. rewrite ?bind_Ok.
  destruct rest as [|d1 [|d2 rest]]; cbn [length Nat.eqb negb]; split; done.
Qed.

Lemma flat_to_sparse_indices_shape_rank_witness :
  flat_to_sparse_indices ex_flat_batch [Some 2%nat; Some 3%nat; Some 4%nat]
  = Err ValueError
  ↔ length [Some 2%nat; Some 3%nat; Some 4%nat] ≠ 2%nat.
Proof.
  apply (flat_to_sparse_indices_shape_rank ex_flat_batch
           [Some 2%nat; Some 3%nat; Some 4%nat] 2 2); done.
Defined.

(** ** [flat_indices_to_dense] *)

Lemma chunks_one {A} w (l : list A) : length l = w → chunks w 1 l = [l].
Proof. intros <-. cbn [chunks]. by rewrite take_ge. Qed.

Lemma chunks_concat_uniform {A} w (ls : list (list A)) :
  Forall (fun b => length b = w) ls → chunks w (length ls) (concat ls) = ls.
Proof.
  induction 1 as [|b ls Hb _ IH]; [done|].
  cbn [length concat]. change (S (length ls)) with (1 + length ls)%nat.
  rewrite (chunks_app w 1 (length ls)) by lia.
  by rewrite chunks_one, IH.
Qed.

Lemma chunks_fmap_concat {A B} (f : A → list B) w m n (l : list A) :
  (∀ x, length (f x) = w) → length l = (n * m)%nat →
  chunks (m * w) n (concat (f <$> l))
  = (fun row => concat (f <$> row)) <$> chunks m n l.
Proof.
  intros Hf. revert l. induction n as [|n IH]; intros l Hl; [done|].
  assert (length (take m l) = m) as Ht by (rewrite length_take; lia).
  assert (length (concat (f <$> take m l)) = (m * w)%nat) as Hc.
  { rewrite (length_concat_uniform _ w).
    - by rewrite length_fmap, Ht.
    - apply Forall_forall. by intros b (x & -> & _)%list_elem_of_fmap. }
  cbn [chunks]. rewrite fmap_cons.
  rewrite <-(take_drop m l) at 1 2. rewrite fmap_app, concat_app.
  rewrite take_app_length', drop_app_length' by done.
  f_equal. apply IH. rewrite length_drop. lia.
Qed.

Lemma chunks_lengths {A} m n (l : list A) :
  length l = (n * m)%nat → Forall (fun row => length row = m) (chunks m n l).
Proof.
  revert l. induction n as [|n IH]; intros l Hl; [constructor|].
  cbn [chunks]. constructor.
  - rewrite length_take. lia.
  - apply IH. rewrite length_drop. lia.
Qed.

(** The sum of the one-hot rows of [row]: position [j] counts the
    occurrences of [j]. *)
Lemma one_hot_sum_lookup d row j :
  (j < d)%nat →
  foldr (zip_with Z.add) (repeat 0 d)
    ((fun i => (fun j => if i =? Z.of_nat j then 1 else 0) <$> seq 0 d) <$> row)
    !! j
  = Some (count_index (Z.of_nat j) row).
Proof.
  intros Hj. induction row as [|i row IH].
  { cbn [fmap list_fmap foldr]. by apply repeat_lookup. }
  rewrite fmap_cons. cbn [foldr]. rewrite lookup_zip_with, IH.
  rewrite list_lookup_fmap, lookup_seq_lt by done.
  cbn [fmap option_fmap option_map mbind option_bind Nat.add].
  f_equal. unfold count_index. cbn [List.filter].
  destruct (i =? Z.of_nat j); cbn [length]; lia.
Qed.

Lemma length_one_hot_sum d row :
  length (foldr (zip_with Z.add) (repeat 0 d)
            ((fun i => (fun j => if i =? Z.of_nat j then 1 else 0) <$> seq 0 d)
               <$> row)) = d.
Proof.
  induction row as [|i row IH]; [apply repeat_length|].
  rewrite fmap_cons. cbn [foldr].
  rewrite length_zip_with, IH, length_fmap, length_seq. lia.
Qed.

(** What [flat_indices_to_dense] returns for an [n x m] batch and a depth
    [d]. *)
Lemma flat_indices_to_dense_ok (indices : DTensor) dense_shape dims n m d :
  shape (tensor_of indices) = [n; m] →
  well_shaped (tensor_of indices) = true →
  dense_shape = PyTensorShape dims
  ∨ (dense_shape = PyList dims ∧ is_fully_defined dims = true) →
  dims !! 1%nat = Some (Some d) →
  flat_indices_to_dense indices dense_shape =
  Ok (mkTensor [n; d]
        (concat ((fun row =>
                    foldr (zip_with Z.add) (repeat 0 d)
                      ((fun i => (fun j => if i =? Z.of_nat j then 1 else 0)
                                   <$> seq 0 d) <$> row))
                   <$> chunks m n (data (tensor_of indices))))).
Proof.
  intros Hs Hw Hds Hd.
  assert (length (data (tensor_of indices)) = (n * m)%nat) as Hl.
  { unfold well_shaped in Hw. rewrite Hs in Hw. apply Nat.eqb_eq in Hw.
    change (size [n; m]) with (n * (m * 1))%nat in Hw. lia. }
  unfold flat_indices_to_dense. rewrite cast_tensor.
  assert (match dense_shape with
          | PyTensorShape dims => list_item dims 1
          | PyList dims =>
              dense_shape ← convert_to_tensor dims int32;
              depth ← tensor_item (tensor_of dense_shape) 1;
              Ok (Some (Z.to_nat depth))
          end = Ok (Some d)) as ->.
  { destruct Hds as [->|[-> Hf]].
    - unfold list_item. by rewrite Hd.
    - unfold convert_to_tensor. rewrite Hf, bind_Ok.
      unfold tensor_item. cbn [tensor_of data].
      rewrite list_lookup_fmap, Hd. cbn [fmap option_fmap option_map default].
      by rewrite bind_Ok, Nat2Z.id. }
  rewrite bind_Ok. cbn [one_hot]. rewrite bind_Ok.
  unfold reduce_sum. cbn [shape data]. rewrite Hs.
  cbn [app length Nat.ltb Nat.leb delete list_delete reduce_data].
  do 2 f_equal.
  change (size [m; d]) with (m * (d * 1))%nat. change (size [d]) with (d * 1)%nat.
  rewrite Nat.mul_1_r.
  rewrite (chunks_fmap_concat _ d m n) by (by intros; rewrite ?length_fmap, ?length_seq).
  rewrite <-list_fmap_compose. f_equal.
  apply Forall_fmap_ext. eapply Forall_impl; [by apply chunks_lengths|].
  intros row Hrow. cbn beta. unfold compose. f_equal.
  rewrite <-Hrow at 1.
  rewrite <-(length_fmap (fun i => (fun j => if i =? Z.of_nat j then 1 else 0)
                                     <$> seq 0 d) row).
  apply chunks_concat_uniform. apply Forall_forall.
  intros b (x & -> & _)%list_elem_of_fmap. by rewrite length_fmap, length_seq.
Qed.

Lemma length_chunks {A} w n (l : list A) : length (chunks w n l) = n.
Proof. revert l. induction n as [|n IH]; intros l; [done|]. cbn. by rewrite IH. Qed.

(** X28. [flat_indices_to_dense] counts: for an [n x m] batch and a depth [d] the
    result has shape [[n; d]], and its element [[r; j]] is the number of
    times row [r] of the batch lists the index [j].  Indices outside
    [[0, d)] are counted nowhere. *)
Theorem flat_indices_to_dense_counts
    (indices : DTensor) (dense_shape : shape_arg) (dims : list (option nat))
    (n m d : nat) :
  shape (tensor_of indices) = [n; m] →
  well_shaped (tensor_of indices) = true →
  dense_shape = PyTensorShape dims
  ∨ (dense_shape = PyList dims ∧ is_fully_defined dims = true) →
  dims !! 1%nat = Some (Some d) →
  ∃ out, flat_indices_to_dense indices dense_shape = Ok out
       ∧ shape out = [n; d]
       ∧ well_shaped out = true
       ∧ ∀ r row j,
           chunks m n (data (tensor_of indices)) !! r = Some row → (j < d)%nat →
           tensor_at out [Z.of_nat r; Z.of_nat j]
           = Some (count_index (Z.of_nat j) row).
Proof.
  intros Hs Hw Hds Hd.
  rewrite (flat_indices_to_dense_ok indices dense_shape dims n m d Hs Hw Hds Hd).
  set (sums := fun row : list Z => foldr _ _ _).
  set (rows := chunks m n (data (tensor_of indices))).
  assert (Forall (fun b => length b = d) (sums <$> rows)) as Hu.
  { apply Forall_forall. intros b (row & -> & _)%list_elem_of_fmap.
    apply length_one_hot_sum. }
  eexists. split; [reflexivity|]. split; [done|]. split.
  - unfold well_shaped. cbn [data shape]. apply Nat.eqb_eq.
    rewrite (length_concat_uniform _ d Hu), length_fmap.
    unfold rows. rewrite length_chunks.
    change (size [n; d]) with (n * (d * 1))%nat. lia.
  - intros r row j Hrow Hj.
    assert (r < n)%nat as Hr.
    { apply lookup_lt_Some in Hrow. unfold rows in Hrow.
      by rewrite length_chunks in Hrow. }
    rewrite (tensor_at_2d _ n d) by done. cbn [data].
    rewrite (concat_lookup_uniform _ d r j (sums row) Hu) by
      (by rewrite ?list_lookup_fmap, ?Hrow).
    by apply one_hot_sum_lookup.
Qed.

Lemma flat_indices_to_dense_counts_witness :
  ∃ out, flat_indices_to_dense ex_count_batch (PyList [Some 2%nat; Some 3%nat])
         = Ok out
       ∧ shape out = [2; 3]%nat
       ∧ well_shaped out = true
       ∧ ∀ r row j,
           chunks 3 2 (data (tensor_of ex_count_batch)) !! r = Some row →
           (j < 3)%nat →
           tensor_at out [Z.of_nat r; Z.of_nat j]
           = Some (count_index (Z.of_nat j) row).
Proof.
  apply (flat_indices_to_dense_counts ex_count_batch
           (PyList [Some 2%nat; Some 3%nat]) [Some 2%nat; Some 3%nat] 2 3 3);
    [reflexivity | reflexivity | right; split; reflexivity | reflexivity].
Defined.

Example ex_flat_indices_to_dense :
  flat_indices_to_dense ex_count_batch (PyList [Some 2%nat; Some 3%nat])
  = Ok (mkTensor [2; 3]%nat [1; 2; 0; 0; 0; 1]).
Proof. reflexivity. Qed.

Lemma count_index_sorted j row :
  StronglySorted Z.lt row →
  count_index j row = if bool_decide (j ∈ row) then 1 else 0.
Proof.
  induction 1 as [|i row Hs IH Hlt]; [done|].
  unfold count_index in *. cbn [List.filter].
  destruct (Z.eqb_spec i j) as [->|Hne].
  - rewrite bool_decide_eq_true_2 by (apply elem_of_cons; auto).
    rewrite bool_decide_eq_false_2 in IH.
    + cbn [length]. lia.
    + intros Hin. rewrite Forall_forall in Hlt. apply Hlt in Hin. lia.
  - rewrite IH.
    destruct (bool_decide_reflect (j ∈ row)) as [Hin|Hin].
    + rewrite bool_decide_eq_true_2; [done|]. apply elem_of_cons. auto.
    + rewrite bool_decide_eq_false_2; [done|].
      intros [->|?]%elem_of_cons; done.
Qed.

Lemma row_pairs_mem rows r j :
  [Z.of_nat r; j] ∈ row_pairs 0 rows ↔ ∃ row, rows !! r = Some row ∧ j ∈ row.
Proof.
  split.
  - intros (row' & indexes & i & Heq & Hrow & Hi)%row_pairs_inv.
    injection Heq as Hr ->. assert (r = row') as -> by lia. eauto.
  - intros (row & Hrow & Hj). exact (row_pairs_elem 0 rows r row j Hrow Hj).
Qed.

(** X29. When every row of the batch lists increasing indices inside [[0, d)],
    the count matrix of [flat_indices_to_dense] is the dense form of the
    sparse tensor of [flat_indices_to_sparse_tensor] with default value 1:
    [to_dense] accepts that sparse tensor and returns the same tensor. *)
Theorem flat_indices_to_dense_to_dense
    (indices : DTensor) (dtype : DType) (n m d : nat) :
  shape (tensor_of indices) = [n; m] →
  well_shaped (tensor_of indices) = true →
  Forall (StronglySorted Z.lt) (chunks m n (data (tensor_of indices))) →
  (∀ x, x ∈ data (tensor_of indices) → 0 ≤ x < Z.of_nat d) →
  ∃ sp out,
    flat_indices_to_sparse_tensor indices (PyTensorShape [None; Some d]) 1 dtype
    = Ok sp
    ∧ to_dense (IsSparseTensor sp) = Ok out
    ∧ flat_indices_to_dense indices (PyTensorShape [None; Some d]) = Ok out.
Proof.
  intros Hs Hw Hsorted Hrange.
  assert (length (data (tensor_of indices)) = (n * m)%nat) as Hl.
  { unfold well_shaped in Hw. rewrite Hs in Hw. apply Nat.eqb_eq in Hw.
    change (size [n; m]) with (n * (m * 1))%nat in Hw. lia. }
  rewrite (flat_indices_to_sparse_tensor_ok
             indices (PyTensorShape [None; Some d]) 1 dtype n m None d Hs Hw
             eq_refl).
  rewrite (flat_indices_to_dense_ok
             indices (PyTensorShape [None; Some d]) [None; Some d] n m d Hs Hw
             (or_introl eq_refl) eq_refl).
  cbn [default].
  set (rows := chunks m n (data (tensor_of indices))) in *.
  set (sums := fun row : list Z => foldr _ _ _).
  assert (length (row_pairs 0 rows) = (n * m)%nat) as Hn
    by (unfold rows; by rewrite length_row_pairs, concat_chunks).
  rewrite <-Hn. change (repeat 1 (length (row_pairs 0 rows)))
    with (ones (length (row_pairs 0 rows))).
  set (sp := mkSparse _ _ _).
  assert (valid_sparse sp = true) as Hvalid.
  { apply valid_sparse_mk;
      [by unfold ones; rewrite repeat_length| |by apply row_pairs_sorted].
    apply Forall_forall.
    intros c (row & indexes & i & -> & Hrow & Hi)%row_pairs_inv.
    assert (0 ≤ i < Z.of_nat d) as Hi'.
    { apply Hrange. rewrite <-(concat_chunks m n) by done.
      apply list_elem_of_In, in_concat. exists indexes.
      split; apply list_elem_of_In; [|done].
      by eapply list_elem_of_lookup_2. }
    apply lookup_lt_Some in Hrow. unfold rows in Hrow.
    rewrite length_chunks in Hrow.
    apply in_bounds_cons. split; [lia|]. apply in_bounds_cons. split; [lia|done]. }
  destruct (to_dense_ok sp [n; d] Hvalid eq_refl) as (dd & Hto & Hlen & Hlook).
  exists sp, (mkTensor [n; d] dd). split; [done|]. split; [done|].
  do 2 f_equal. symmetry.
  assert (Forall (fun b => length b = d) (sums <$> rows)) as Hu.
  { apply Forall_forall. intros b (row & -> & _)%list_elem_of_fmap.
    apply length_one_hot_sum. }
  change (size [n; d]) with (n * (d * 1))%nat in *.
  apply (list_eq_below _ _ (n * (d * 1))); [done| |].
  { rewrite (length_concat_uniform _ d Hu), length_fmap.
    unfold rows. rewrite length_chunks. lia. }
  intros k Hk. rewrite (Hlook k Hk).
  assert (0 < d)%nat as Hd by lia.
  pose proof (Nat.div_mod_eq k d) as Hkd.
  assert (k mod d < d)%nat as Hj by (apply Nat.mod_upper_bound; lia).
  assert (k / d < n)%nat as Hr by (apply Nat.Div0.div_lt_upper_bound; lia).
  assert (coord_of [n; d] k = [Z.of_nat (k / d); Z.of_nat (k mod d)]) as ->.
  { unfold coord_of. rewrite !unravel_cons.
    change (size [d]) with (d * 1)%nat. change (size []) with 1%nat.
    by rewrite Nat.mul_1_r, Nat.div_1_r. }
  destruct (rows !! (k / d)%nat) as [row|] eqn:Hrow.
  2:{ apply lookup_ge_None in Hrow. unfold rows in Hrow.
      rewrite length_chunks in Hrow. lia. }
  replace k with (k / d * d + k mod d)%nat at 3 by lia.
  rewrite (concat_lookup_uniform _ d (k / d) (k mod d) (sums row) Hu)
    by (by rewrite ?list_lookup_fmap, ?Hrow).
  unfold sums. rewrite one_hot_sum_lookup by done. f_equal.
  rewrite count_index_sorted.
  2:{ rewrite Forall_forall in Hsorted. apply Hsorted.
      by eapply list_elem_of_lookup_2. }
  unfold sp. rewrite sp_get_ones.
  destruct (bool_decide_reflect (Z.of_nat (k mod d) ∈ row)) as [Hin|Hin].
  - rewrite bool_decide_eq_true_2; [done|]. apply row_pairs_mem. eauto.
  - rewrite bool_decide_eq_false_2; [done|].
    intros (row' & Hrow' & Hin')%row_pairs_mem. congruence.
Qed.

Lemma flat_indices_to_dense_to_dense_witness :
  ∃ sp out,
    flat_indices_to_sparse_tensor ex_sorted_batch
      (PyTensorShape [None; Some 3%nat]) 1 float32 = Ok sp
    ∧ to_dense (IsSparseTensor sp) = Ok out
    ∧ flat_indices_to_dense ex_sorted_batch (PyTensorShape [None; Some 3%nat])
      = Ok out.
Proof.
  apply (flat_indices_to_dense_to_dense ex_sorted_batch float32 2 2 3);
    [reflexivity | reflexivity | |].
  - unfold ex_sorted_batch. cbn. repeat constructor; lia.
  - intros x Hx. unfold ex_sorted_batch in Hx. cbn in Hx.
    repeat (apply elem_of_cons in Hx as [->|Hx]; [lia|]).
    by apply elem_of_nil in Hx.
Defined.

(** ** More on [complete_shape] *)

(** X30. A shape that is not fully defined is completed from two numbers only:
    the leading dimension of the reference tensor and entry 1 of the shape.
    Given as a [TensorShape], whatever its entry 0 and its further entries,
    the result is the pair of these two; given as a list, the call raises
    [AttributeError]. *)
Theorem complete_shape_unknown {A} (tensor : Tensor A)
    (dims : list (option nat)) (d b : nat) (rest : list nat) (dtype : DType) :
  is_fully_defined dims = false →
  dims !! 1%nat = Some (Some d) →
  shape tensor = b :: rest →
  complete_shape tensor (PyTensorShape dims) dtype
  = Ok (ShapeTensor (mkDTensor dtype (mkTensor [2%nat] [Z.of_nat b; Z.of_nat d])))
  ∧ complete_shape tensor (PyList dims) dtype = Err AttributeError.
Proof.
  intros Hf Hd Hs. split.
  - by apply (complete_shape_tensor_shape tensor dims d b rest).
  - by apply complete_shape_list.
Qed.

Lemma complete_shape_unknown_witness :
  complete_shape ex_ref_tensor
    (PyTensorShape [Some 4%nat; Some 5%nat; None]) int64
  = Ok (ShapeTensor (mkDTensor int64 (mkTensor [2%nat] [Z.of_nat 7; Z.of_nat 5])))
  ∧ complete_shape ex_ref_tensor (PyList [Some 4%nat; Some 5%nat; None]) int64
    = Err AttributeError.
Proof.
  apply (complete_shape_unknown ex_ref_tensor
           [Some 4%nat; Some 5%nat; None] 5 7 [3%nat] int64); reflexivity.
Defined.
